(** * Tree query and patch engine of automation-client-ts

    A shallow embedding of [FileHit] (the deferred, offset-keyed patch
    log of [project/util/parseUtils]) and of the two predicates of
    [tree/path/pathExpressionPredicates] ([ValuePredicate] and
    [NestedPathExpressionPredicate]), with the JavaScript library
    functions they call: [String.prototype.substr],
    [String.prototype.replace] with a string pattern, and
    [Array.prototype.sort] with a comparison function.

    Strings are [string]s (a JavaScript string is a sequence of 16-bit
    code units; a character is an [ascii] here, which no function
    below looks into except to recognise the [$] patterns of
    [replace]).  Offsets are positions in a file handed out by the
    parser, modelled as [nat]; the numbers a comparison function
    returns are [Z].

    The classes around them that work through promises are embedded as
    functions of the trace of the calls they make on their
    collaborators: [DefaultSlackMessageClient], [StableDirectoryManager]
    with the [clone] and [cloned] of [GitCommandGitProject], and the
    methods of [GitCommandGitProject] that run git commands. *)

From Stdlib Require Import List Arith ZArith Lia Bool Ascii String Permutation.
Import ListNotations.
Open Scope string_scope.

(** ** JavaScript strings *)

Module JsString.

(** The first [n] characters of [s] (all of [s] when it is shorter). *)
Fixpoint take (n : nat) (s : string) : string :=
  match n, s with
  | S n', String c s' => String c (take n' s')
  | _, _ => ""
  end.

(** [s] without its first [n] characters (empty when [s] is shorter). *)
Fixpoint drop (n : nat) (s : string) : string :=
  match n, s with
  | S n', String _ s' => drop n' s'
  | _, _ => s
  end.

(** [s.substr(start)] and [s.substr(start, len)], for a start that is
    a natural number: the optional second argument is an [option]. *)
Definition substr (s : string) (start : nat) (len : option nat) : string :=
  match len with
  | None => drop start s
  | Some l => take l (drop start s)
  end.

(** Does [s] begin with [p]? *)
Fixpoint startsWith (s p : string) {struct p} : bool :=
  match p, s with
  | "", _ => true
  | String _ _, "" => false
  | String a p', String b s' => Ascii.eqb a b && startsWith s' p'
  end.

(** [s.indexOf(p)]: the smallest position at which [p] occurs in [s];
    [None] stands for the result -1. *)
Fixpoint indexOf (s p : string) : option nat :=
  if startsWith s p then Some 0
  else match s with
       | "" => None
       | String _ s' => option_map S (indexOf s' p)
       end.

(** GetSubstitution of ECMAScript for a string pattern, which has no
    captures: in [replacement], [$$] stands for one dollar sign, [$&]
    for the matched text, [$`] for the text before the match and [$']
    for the text after it; every other character, and a dollar sign
    followed by anything else (a digit included, as there is no
    capture to refer to), stands for itself. *)
Fixpoint GetSubstitution (matched before after replacement : string) : string :=
  match replacement with
  | "" => ""
  | String c tl =>
      if Ascii.eqb c "$" then
        match tl with
        | "" => String c ""
        | String d rest =>
            if Ascii.eqb d "$" then String "$" (GetSubstitution matched before after rest)
            else if Ascii.eqb d "&" then matched ++ GetSubstitution matched before after rest
            else if Ascii.eqb d "`" then before ++ GetSubstitution matched before after rest
            else if Ascii.eqb d "'" then after ++ GetSubstitution matched before after rest
            else String c (GetSubstitution matched before after tl)
        end
      else String c (GetSubstitution matched before after tl)
  end.

(** [s.replace(searchValue, replaceValue)] with two strings: the first
    occurrence of [searchValue] is replaced by the substitution that
    [replaceValue] describes; [s] is returned as it is when
    [searchValue] does not occur. *)
Definition replace (s searchValue replaceValue : string) : string :=
  match indexOf s searchValue with
  | None => s
  | Some pos =>
      let before := take pos s in
      let after := drop (pos + String.length searchValue) s in
      before ++ GetSubstitution searchValue before after replaceValue ++ after
  end.

End JsString.

(** ** JavaScript arrays: [Array.prototype.sort] with a comparison function

    ECMAScript fixes the result of [sort] only for a consistent
    comparison function and leaves it to the engine otherwise.  The two
    algorithms V8 (the engine of Node.js) has run are modelled, each on
    the arrays it sorts by insertion alone: the insertion sort of the
    library's earlier [ArraySort] (arrays of at most 10 elements, the
    engine of the time of this source), and the run detection followed
    by binary insertion of the later TimSort (arrays of fewer than 64
    elements, which make a single run).  An array is a [list]; the
    sort is in place, so its result is the new state of the array. *)

Module JsArray.

Inductive Engine : Type :=
| InsertionSortEngine
| TimSortEngine.

Section Sort.

Variable A : Type.
Variable comparefn : A -> A -> Z.

(** The inner loop of InsertionSort: [element] moves down past every
    [tmp] with [comparefn tmp element > 0] and stops at the first other
    one.  [sorted_rev] is the part of the array before [element], last
    element first. *)
Fixpoint insert_down (element : A) (sorted_rev : list A) : list A :=
  match sorted_rev with
  | [] => [element]
  | tmp :: below =>
      if (0 <? comparefn tmp element)%Z
      then tmp :: insert_down element below
      else element :: sorted_rev
  end.

Definition InsertionSort (a : list A) : list A :=
  rev (fold_left (fun sorted_rev element => insert_down element sorted_rev) a []).

(** CountAndMakeRun of TimSort: the length of the run the array starts
    with, which is made ascending when it is (strictly) descending.
    [count_run] counts the elements that continue the run after its
    first two. *)
Fixpoint count_run (isDescending : bool) (previous : A) (rest : list A) : nat :=
  match rest with
  | [] => 0
  | current :: rest' =>
      let order := comparefn current previous in
      if isDescending
      then (if (0 <=? order)%Z then 0 else S (count_run isDescending current rest'))
      else (if (order <? 0)%Z then 0 else S (count_run isDescending current rest'))
  end.

Definition CountAndMakeRun (a : list A) : nat * list A :=
  match a with
  | [] => (0, a)
  | [_] => (1, a)
  | elementHigh :: elementLow :: rest =>
      let isDescending := (comparefn elementLow elementHigh <? 0)%Z in
      let runLength := 2 + count_run isDescending elementLow rest in
      (runLength,
       if isDescending then (rev (firstn runLength a) ++ skipn runLength a)%list else a)
  end.

(** The binary search of BinaryInsertionSort for the place of [pivot]
    in the sorted part [sorted]: the loop [while (left < right)] runs
    at most [right - left] times, which is the fuel it is given. *)
Fixpoint binary_search (fuel : nat) (sorted : list A) (pivot : A) (left right : nat) : nat :=
  match fuel with
  | 0 => left
  | S fuel' =>
      if (left <? right)%nat then
        let mid := left + Nat.div2 (right - left) in
        match nth_error sorted mid with
        | Some x =>
            if (comparefn pivot x <? 0)%Z
            then binary_search fuel' sorted pivot left mid
            else binary_search fuel' sorted pivot (mid + 1) right
        | None => left
        end
      else left
  end.

Definition insert_pivot (sorted : list A) (pivot : A) : list A :=
  let left := binary_search (List.length sorted) sorted pivot 0 (List.length sorted) in
  (firstn left sorted ++ pivot :: skipn left sorted)%list.

Definition BinaryInsertionSort (sorted rest : list A) : list A :=
  fold_left insert_pivot rest sorted.

Definition TimSort (a : list A) : list A :=
  let (runLength, a') := CountAndMakeRun a in
  BinaryInsertionSort (firstn runLength a') (skipn runLength a').

Definition sort (e : Engine) (a : list A) : list A :=
  match e with
  | InsertionSortEngine => InsertionSort a
  | TimSortEngine => TimSort a
  end.

End Sort.

Arguments sort {A} comparefn e a.
Arguments InsertionSort {A} comparefn a.
Arguments TimSort {A} comparefn a.
Arguments insert_down {A} comparefn element sorted_rev.
Arguments count_run {A} comparefn isDescending previous rest.
Arguments CountAndMakeRun {A} comparefn a.
Arguments binary_search {A} comparefn fuel sorted pivot left right.
Arguments insert_pivot {A} comparefn sorted pivot.
Arguments BinaryInsertionSort {A} comparefn sorted rest.

End JsArray.

(** ** Tree nodes *)

(** Modelled from the spec: the [TreeNode] interface is declared
    outside the sources at hand.  A node has a name, a textual value,
    the offset of that value in the content of its file, and ordered
    children ([$name], [$value], [$offset] and [$children]). *)
#[warnings="-register-all"]
Inductive TreeNode : Type :=
  mkTreeNode {
    node_name : string;
    node_value : string;
    node_offset : nat;
    node_children : list TreeNode
  }.

(** ** FileHit: a file and the hits against it *)

(** The [Update] interface of the constructor of [FileHit]. *)
Record Update : Type :=
  mkUpdate {
    initialValue : string;
    currentValue : string;
    offset : nat
  }.

(** A match after the constructor has redefined its [$value]: the node
    with the two variables [initialValue] and [currentValue] that the
    accessors, [append] and [prepend] of that node close over. *)
Record MatchResult : Type :=
  mkMatchResult {
    m_node : TreeNode;
    m_initialValue : string;
    m_currentValue : string
  }.

(** The state a [FileHit] works on: the content its [file] holds (what
    [getContent] yields and [setContent] overwrites), its [matches],
    and the array [updates] of the constructor. *)
Record FileHit : Type :=
  mkFileHit {
    file : string;
    matches : list MatchResult;
    updates : list Update
  }.

Definition instrument (m : TreeNode) : MatchResult :=
  {| m_node := m; m_initialValue := node_value m; m_currentValue := node_value m |}.

(** [new FileHit(project, file, nodes)]: every node becomes a match and
    no update is recorded yet.  The action recorded on the project is
    [doReplace] below. *)
Definition new_FileHit (content : string) (nodes : list TreeNode) : FileHit :=
  {| file := content; matches := map instrument nodes; updates := [] |}.

Fixpoint set_nth {A : Type} (i : nat) (x : A) (l : list A) : list A :=
  match i, l with
  | _, [] => []
  | 0, _ :: l' => x :: l'
  | S i', y :: l' => y :: set_nth i' x l'
  end.

(** The calls a caller makes on the match [matches[i]].  A match that
    does not exist has no accessor to call ([None]: the call throws). *)

(** The getter of [$value]. *)
Definition get_value (i : nat) (fh : FileHit) : option string :=
  option_map m_currentValue (nth_error (matches fh) i).

(** The setter of [$value]. *)
Definition set_value (i : nat) (v2 : string) (fh : FileHit) : option FileHit :=
  match nth_error (matches fh) i with
  | None => None
  | Some m =>
      let m' := {| m_node := m_node m; m_initialValue := m_initialValue m; m_currentValue := v2 |} in
      Some {| file := file fh;
              matches := set_nth i m' (matches fh);
              updates := (updates fh ++
                          [ {| initialValue := m_initialValue m;
                               currentValue := m_currentValue m';
                               offset := node_offset (m_node m) |} ])%list |}
  end.

Definition append (i : nat) (content : string) (fh : FileHit) : option FileHit :=
  match nth_error (matches fh) i with
  | None => None
  | Some m =>
      Some {| file := file fh;
              matches := matches fh;
              updates := (updates fh ++
                          [ {| initialValue := "";
                               currentValue := content;
                               offset := node_offset (m_node m) + String.length (m_currentValue m) |} ])%list |}
  end.

Definition prepend (i : nat) (content : string) (fh : FileHit) : option FileHit :=
  match nth_error (matches fh) i with
  | None => None
  | Some m =>
      Some {| file := file fh;
              matches := matches fh;
              updates := (updates fh ++
                          [ {| initialValue := "";
                               currentValue := content;
                               offset := node_offset (m_node m) |} ])%list |}
  end.

(** A sequence of such calls, made one after the other. *)
Inductive Call : Type :=
| SetValue (i : nat) (v2 : string)
| Append (i : nat) (content : string)
| Prepend (i : nat) (content : string).

Definition call (c : Call) (fh : FileHit) : option FileHit :=
  match c with
  | SetValue i v2 => set_value i v2 fh
  | Append i content => append i content fh
  | Prepend i content => prepend i content fh
  end.

(** The match a call is made on. *)
Definition call_index (c : Call) : nat :=
  match c with
  | SetValue i _ | Append i _ | Prepend i _ => i
  end.

Fixpoint calls (cs : list Call) (fh : FileHit) : option FileHit :=
  match cs with
  | [] => Some fh
  | c :: cs' =>
      match call c fh with
      | None => None
      | Some fh' => calls cs' fh'
      end
  end.

(** The comparison function handed to [sort] in [doReplace],
    [u => -u.offset]: it reads its first argument only. *)
Definition by_offset (u _ : Update) : Z := (- Z.of_nat (offset u))%Z.

(** The body of the loop of [doReplace]. *)
Definition apply_update (newContent : string) (u : Update) : string :=
  JsString.substr newContent 0 (Some (offset u)) ++
  JsString.replace (JsString.substr newContent (offset u) None) (initialValue u) (currentValue u).

(** The order in which [doReplace] visits the updates: the array after
    [updates.sort(u => -u.offset)]. *)
Definition application_order (e : JsArray.Engine) (us : list Update) : list Update :=
  JsArray.sort by_offset e us.

(** [doReplace]: the content of the file is read, the updates are
    sorted in place and applied one after the other, and the result is
    written back. *)
Definition doReplace (e : JsArray.Engine) (fh : FileHit) : FileHit :=
  let content := file fh in
  let sorted := application_order e (updates fh) in
  {| file := fold_left apply_update sorted content;
     matches := matches fh;
     updates := sorted |}.

(** Modelled from the spec: the project is an external collaborator,
    whose [recordAction] keeps the action it is handed until a commit
    point of the caller's choice.  [flush] is that point: it runs the
    one action the constructor of [FileHit] recorded. *)
Definition flush (e : JsArray.Engine) (fh : FileHit) : FileHit := doReplace e fh.

(** ** Predicates of path expressions *)

(** What an expression engine returns: the matched nodes, or the
    message of a failure.  Both have a [length] in JavaScript. *)
Inductive ExecutionResult : Type :=
| SuccessResult (nodes : list TreeNode)
| FailureResult (message : string).

Definition result_length (r : ExecutionResult) : nat :=
  match r with
  | SuccessResult nodes => List.length nodes
  | FailureResult message => String.length message
  end.

(** Modelled from the spec: [isSuccessResult] is a function of
    [pathExpression], outside the sources at hand; it tells a success
    result from a failure. *)
Definition isSuccessResult (r : ExecutionResult) : bool :=
  match r with
  | SuccessResult _ => true
  | FailureResult _ => false
  end.

Section Predicates.

(** Path expressions are built and interpreted outside the sources at
    hand: a predicate only holds one and hands it to the engine. *)
Variable PathExpression : Type.

Definition ExpressionEngine : Type := TreeNode -> PathExpression -> ExecutionResult.

(** The [Predicate] interface. *)
Class Predicate (P : Type) : Type :=
  evaluate : P -> TreeNode -> list TreeNode -> ExpressionEngine -> bool.

Record ValuePredicate : Type :=
  mkValuePredicate { vp_value : string }.

Record NestedPathExpressionPredicate : Type :=
  mkNestedPathExpressionPredicate { pathExpression : PathExpression }.

(** [ValuePredicate.evaluate]: [nodeToTest.$value === this.$value]. *)
#[global] Instance ValuePredicate_evaluate : Predicate ValuePredicate :=
  fun this nodeToTest _ _ => String.eqb (node_value nodeToTest) (vp_value this).

(** [NestedPathExpressionPredicate.evaluate]. *)
#[global] Instance NestedPathExpressionPredicate_evaluate : Predicate NestedPathExpressionPredicate :=
  fun this nodeToTest _ ee =>
    let r := ee nodeToTest (pathExpression this) in
    isSuccessResult r && (0 <? result_length r)%nat.

End Predicates.

Arguments evaluate {PathExpression P Predicate} _ _ _ _.

(** ** Notions the properties below are stated with *)

(** A replacement text without any dollar sign: [replace] takes it as
    it is written. *)
Fixpoint no_dollar (r : string) : bool :=
  match r with
  | "" => true
  | String c r' => negb (Ascii.eqb c "$") && no_dollar r'
  end.

(** Updates in descending order of offset: no update comes before one
    of a larger offset. *)
Fixpoint descending_offsets (us : list Update) : bool :=
  match us with
  | [] => true
  | u :: rest =>
      forallb (fun v => offset v <=? offset u)%nat rest && descending_offsets rest
  end.

(** [p] occurs in [s] at position [k]. *)
Definition occurs_at (k : nat) (p s : string) : bool :=
  JsString.startsWith (JsString.drop k s) p.

(** The value of match [i] after the calls [cs], when it was [v]
    before them: the value of the last call of its setter, if any. *)
Fixpoint last_set (i : nat) (cs : list Call) (v : string) : string :=
  match cs with
  | [] => v
  | SetValue j v2 :: cs' => last_set i cs' (if Nat.eqb i j then v2 else v)
  | _ :: cs' => last_set i cs' v
  end.

(** The text a call hands over. *)
Definition call_text (c : Call) : string :=
  match c with
  | SetValue _ text | Append _ text | Prepend _ text => text
  end.

(** An update as a call on one of [nodes] records it: a replacement
    of the value of the node at the offset of the node, or an
    insertion at or after that offset. *)
Definition recorded_from (nodes : list TreeNode) (u : Update) : Prop :=
  exists node,
    In node nodes /\
    ((initialValue u = node_value node /\ offset u = node_offset node) \/
     (initialValue u = "" /\ node_offset node <= offset u)).

(** What the calls keep: the nodes of the matches and the values they
    were parsed with. *)
Definition parse_time (nodes : list TreeNode) (fh : FileHit) : Prop :=
  map m_node (matches fh) = nodes /\
  Forall (fun m => m_initialValue m = node_value (m_node m)) (matches fh) /\
  Forall (recorded_from nodes) (updates fh).

(** ** Promises and the world outside

    The remaining classes do their work through promises and through
    collaborators that are not part of the sources at hand (the file
    system of [fs-extra], [exec], the graph client, the delegate of a
    message client).  A promise-returning function is a function of
    the trace of the calls made on these collaborators so far, which
    returns how the promise settles and the trace after it; what a
    collaborator answers is a parameter, a function of the trace before
    the call and of the arguments of the call.  Calls of the logger and
    of [console.log] are left out. *)

Inductive Reason : Type :=
| ErrorObject (message : string)
| TypeErrorObject
| StringReason (text : string).

Inductive Settled (A : Type) : Type :=
| Fulfilled (value : A)
| Rejected (reason : Reason).

Arguments Fulfilled {A} value.
Arguments Rejected {A} reason.

Module Promise.

Section Tasks.

Variable World : Type.

Definition Task (A : Type) : Type := World -> Settled A * World.

(** [Promise.resolve(value)], and a callback that returns [value]. *)
Definition resolve {A : Type} (value : A) : Task A :=
  fun w => (Fulfilled value, w).

(** [Promise.reject(reason)], and a callback that throws [reason]. *)
Definition reject {A : Type} (reason : Reason) : Task A :=
  fun w => (Rejected reason, w).

(** [p.then(onFulfilled)]. *)
Definition then_ {A B : Type} (p : Task A) (onFulfilled : A -> Task B) : Task B :=
  fun w =>
    match p w with
    | (Fulfilled value, w') => onFulfilled value w'
    | (Rejected reason, w') => (Rejected reason, w')
    end.

(** [p.then(onFulfilled, onRejected)]: [onRejected] handles a rejection
    of [p], not one of [onFulfilled]. *)
Definition then2 {A B : Type} (p : Task A)
    (onFulfilled : A -> Task B) (onRejected : Reason -> Task B) : Task B :=
  fun w =>
    match p w with
    | (Fulfilled value, w') => onFulfilled value w'
    | (Rejected reason, w') => onRejected reason w'
    end.

End Tasks.

Arguments resolve {World A} value _.
Arguments reject {World A} reason _.
Arguments then_ {World A B} p onFulfilled _.
Arguments then2 {World A B} p onFulfilled onRejected _.

End Promise.

(** ** DefaultSlackMessageClient *)

Module DefaultSlackMessageClient.

(** The query of [lookupChatTeam]. *)
Definition Query : string := "
query ChatTeam {
  ChatTeam {
    id
  }
}".

(** What the query returns: the chat teams, each with its [id]. *)
Record ChatTeamNode : Type := mkChatTeamNode { id : string }.
Record QueryResult : Type := mkQueryResult { ChatTeam : list ChatTeamNode }.

Section Client.

(** Messages, destinations (one or several, as [send] takes them),
    options and the users or channels of [addressUsers] and
    [addressChannels] are declared outside the sources at hand, with
    the functions on them. *)
Variables Msg Destinations MessageOptions Names Response : Type.
Variable toStringArray : Names -> list string.
Variable addressSlackUsers : string -> list string -> Destinations.
Variable addressSlackChannels : string -> list string -> Destinations.

(** The calls made on the graph client and on the delegate. *)
Inductive ClientCall : Type :=
| ExecuteQuery (query : string)
| DelegateRespond (msg : Msg) (options : option MessageOptions)
| DelegateSend (msg : Msg) (destinations : Destinations) (options : option MessageOptions).

Definition Trace : Type := list ClientCall.

(** How the graph client and the delegate answer. *)
Record Collaborators : Type :=
  mkCollaborators {
    executeQuery_answer : Trace -> string -> Settled QueryResult;
    respond_answer : Trace -> Msg -> option MessageOptions -> Settled Response;
    send_answer : Trace -> Msg -> Destinations -> option MessageOptions -> Settled Response
  }.

Variable c : Collaborators.

(** Whether the client was given a graph client. *)
Variable graphClient : bool.

Definition executeQuery (query : string) : Promise.Task Trace QueryResult :=
  fun tr => (executeQuery_answer c tr query, (tr ++ [ExecuteQuery query])%list).

Definition delegate_respond (msg : Msg) (options : option MessageOptions)
  : Promise.Task Trace Response :=
  fun tr => (respond_answer c tr msg options, (tr ++ [DelegateRespond msg options])%list).

Definition delegate_send (msg : Msg) (destinations : Destinations)
    (options : option MessageOptions) : Promise.Task Trace Response :=
  fun tr =>
    (send_answer c tr msg destinations options,
     (tr ++ [DelegateSend msg destinations options])%list).

Definition respond (msg : Msg) (options : option MessageOptions)
  : Promise.Task Trace Response :=
  delegate_respond msg options.

Definition send (msg : Msg) (destinations : Destinations)
    (options : option MessageOptions) : Promise.Task Trace Response :=
  delegate_send msg destinations options.

(** [lookupChatTeam]: [result.ChatTeam[0].id] is a TypeError when there
    is no chat team. *)
Definition lookupChatTeam : Promise.Task Trace string :=
  if graphClient then
    Promise.then_ (executeQuery Query)
      (fun result =>
         if (1 <? List.length (ChatTeam result))%nat then
           Promise.reject
             (StringReason
                ("More then 1 ChatTeam found. Please use fully qualified " ++
                 "message addressing available on MessageClient"))
         else
           match nth_error (ChatTeam result) 0 with
           | Some team => Promise.resolve (id team)
           | None => Promise.reject TypeErrorObject
           end)
  else
    Promise.reject
      (StringReason
         ("No GraphClient to lookup ChatTeam. Please use fully qualified message " ++
          "addressing available on MessageClient")).

Definition addressUsers (msg : Msg) (users : Names) (options : option MessageOptions)
  : Promise.Task Trace Response :=
  Promise.then_ lookupChatTeam
    (fun chatTeamId =>
       delegate_send msg (addressSlackUsers chatTeamId (toStringArray users)) options).

Definition addressChannels (msg : Msg) (channels : Names) (options : option MessageOptions)
  : Promise.Task Trace Response :=
  Promise.then_ lookupChatTeam
    (fun chatTeamId =>
       delegate_send msg (addressSlackChannels chatTeamId (toStringArray channels)) options).

End Client.

Arguments DelegateRespond {Msg Destinations MessageOptions} msg options.
Arguments DelegateSend {Msg Destinations MessageOptions} msg destinations options.
Arguments executeQuery_answer {Msg Destinations MessageOptions Response} _ _ _.
Arguments respond_answer {Msg Destinations MessageOptions Response} _ _ _ _.
Arguments send_answer {Msg Destinations MessageOptions Response} _ _ _ _ _.
Arguments executeQuery {Msg Destinations MessageOptions Response} c query _.
Arguments delegate_respond {Msg Destinations MessageOptions Response} c msg options _.
Arguments delegate_send {Msg Destinations MessageOptions Response} c msg destinations options _.
Arguments respond {Msg Destinations MessageOptions Response} c msg options _.
Arguments send {Msg Destinations MessageOptions Response} c msg destinations options _.
Arguments lookupChatTeam {Msg Destinations MessageOptions Response} c graphClient _.
Arguments addressUsers {Msg Destinations MessageOptions Names Response}
  toStringArray addressSlackUsers c graphClient msg users options _.
Arguments addressChannels {Msg Destinations MessageOptions Names Response}
  toStringArray addressSlackChannels c graphClient msg channels options _.

End DefaultSlackMessageClient.

(** What it is for [run], one of [addressUsers] and [addressChannels],
    to send only after the lookup of the chat team, to the destinations
    [destinationsOf] makes of its [id]: when the client has a graph
    client and the query returns exactly one chat team, the delegate is
    handed the message once, and its answer is the result; in every
    other case the result is a rejection and the delegate is not
    called. *)
Definition sends_after_lookup {Msg Destinations MessageOptions Response : Type}
    (c : DefaultSlackMessageClient.Collaborators Msg Destinations MessageOptions Response)
    (graphClient : bool)
    (destinationsOf : string -> Destinations)
    (msg : Msg) (options : option MessageOptions)
    (run : Promise.Task (DefaultSlackMessageClient.Trace Msg Destinations MessageOptions) Response)
  : Prop :=
  let query :=
    DefaultSlackMessageClient.ExecuteQuery Msg Destinations MessageOptions
      DefaultSlackMessageClient.Query in
  forall tr,
    (forall team,
        graphClient = true ->
        DefaultSlackMessageClient.executeQuery_answer c tr DefaultSlackMessageClient.Query
        = Fulfilled (DefaultSlackMessageClient.mkQueryResult [team]) ->
        let destinations := destinationsOf (DefaultSlackMessageClient.id team) in
        run tr =
        (DefaultSlackMessageClient.send_answer c (tr ++ [query])%list msg destinations options,
         (tr ++ [query; DefaultSlackMessageClient.DelegateSend msg destinations options])%list))
    /\
    ((forall team,
         graphClient = true ->
         DefaultSlackMessageClient.executeQuery_answer c tr DefaultSlackMessageClient.Query
         <> Fulfilled (DefaultSlackMessageClient.mkQueryResult [team])) ->
     exists reason,
       run tr = (Rejected reason, tr) \/
       run tr = (Rejected reason, (tr ++ [query])%list)).

(** ** The file system, [exec] and the local project, from outside *)

Record ProjectOperationCredentials : Type :=
  mkProjectOperationCredentials { token : string }.

(** Modelled from the uses in the sources at hand: a remote repository
    reference has an owner, a repository name, a sha (a branch name
    such as [master] by default), a url, the url to clone from, which
    depends on the credentials, and possibly a path into the
    repository. *)
Module RemoteRepoRef.

Record RemoteRepoRef : Type :=
  mkRemoteRepoRef {
    owner : string;
    repo : string;
    sha : string;
    url : string;
    cloneUrl : ProjectOperationCredentials -> string;
    path : option string
  }.

End RemoteRepoRef.

(** What [NodeFsLocalProject.fromExistingDirectory] resolves with, as
    far as [cloned] reads it. *)
Module LocalProject.

Record LocalProject : Type := mkLocalProject { baseDir : string }.

End LocalProject.

Module Outside.

Record Stats : Type := mkStats { isDirectory : bool }.

Inductive OutsideCall : Type :=
| FsStat (path : string)
| FsMkdir (path : string)
| FsRemove (path : string)
| FsPathExists (path : string)
| Exec (command cwd : string)
| FromExistingDirectory (baseDir : string).

(** The calls made so far, and the counter of the directory manager. *)
Record World : Type :=
  mkWorld {
    trace : list OutsideCall;
    directoriesUsed : nat
  }.

(** How the outside answers a call, given the calls made before it. *)
Record Answers : Type :=
  mkAnswers {
    stat_answer : list OutsideCall -> string -> Settled Stats;
    mkdir_answer : list OutsideCall -> string -> Settled unit;
    remove_answer : list OutsideCall -> string -> Settled unit;
    pathExists_answer : list OutsideCall -> string -> Settled bool;
    exec_answer : list OutsideCall -> string -> string -> Settled unit;
    fromExistingDirectory_answer :
      list OutsideCall -> RemoteRepoRef.RemoteRepoRef -> string ->
      Settled LocalProject.LocalProject
  }.

Definition called (c : OutsideCall) (w : World) : World :=
  {| trace := (trace w ++ [c])%list; directoriesUsed := directoriesUsed w |}.

Section Calls.

Variable o : Answers.

Definition fs_stat (path : string) : Promise.Task World Stats :=
  fun w => (stat_answer o (trace w) path, called (FsStat path) w).

Definition fs_mkdir (path : string) : Promise.Task World unit :=
  fun w => (mkdir_answer o (trace w) path, called (FsMkdir path) w).

Definition fs_remove (path : string) : Promise.Task World unit :=
  fun w => (remove_answer o (trace w) path, called (FsRemove path) w).

Definition fs_pathExists (path : string) : Promise.Task World bool :=
  fun w => (pathExists_answer o (trace w) path, called (FsPathExists path) w).

Definition exec (command cwd : string) : Promise.Task World unit :=
  fun w => (exec_answer o (trace w) command cwd, called (Exec command cwd) w).

Definition fromExistingDirectory (id : RemoteRepoRef.RemoteRepoRef) (baseDir : string)
  : Promise.Task World LocalProject.LocalProject :=
  fun w =>
    (fromExistingDirectory_answer o (trace w) id baseDir,
     called (FromExistingDirectory baseDir) w).

End Calls.

End Outside.

(** ** DirectoryManager and StableDirectoryManager *)

Inductive CloneDirectoryType : Type :=
| parent_directory
| actual_directory.

Record CloneDirectoryInfo : Type :=
  mkCloneDirectoryInfo {
    path : string;
    type : CloneDirectoryType
  }.

(** The [DirectoryManager] interface; the options of a clone are
    declared outside the sources at hand. *)
Class DirectoryManager (CloneOptions M : Type) : Type :=
  directoryFor :
    M -> string -> string -> string -> CloneOptions ->
    Promise.Task Outside.World CloneDirectoryInfo.

Module StableDirectoryManager.

(** The options of the manager, after the defaults are merged in. *)
Record StableDirectoryManagerOpts : Type :=
  mkStableDirectoryManagerOpts {
    reuseDirectories : bool;
    cleanOnExit : option bool;
    baseDir : string
  }.

Section Manager.

Variable o : Outside.Answers.
Variable CloneOptions : Type.
Variable opts : StableDirectoryManagerOpts.

Definition assureDirectoryExists (name : string) : Promise.Task Outside.World unit :=
  Promise.then2 (Outside.fs_stat o name)
    (fun stats =>
       if negb (Outside.isDirectory stats)
       then Promise.reject (ErrorObject (name ++ "exists but is not a directory."))
       else Promise.resolve tt)
    (fun err => Outside.fs_mkdir o name).

Definition pathFor (user repo : string) : string :=
  baseDir opts ++ "/" ++ user ++ "/" ++ repo.

Definition createFreshDir (user repo : string) : Promise.Task Outside.World string :=
  let userDir := baseDir opts ++ "/" ++ user in
  let repoDir := (userDir ++ "/") ++ repo in
  Promise.then_
    (Promise.then_
       (Promise.then_ (assureDirectoryExists (baseDir opts))
          (fun _ => assureDirectoryExists userDir))
       (fun _ => Outside.fs_remove o repoDir))
    (fun _ => Promise.resolve userDir).

(** [existingDirectoryFor]: [None] is the result [undefined]. *)
Definition existingDirectoryFor (owner repo branch : string) (cloneOpts : CloneOptions)
  : Promise.Task Outside.World (option CloneDirectoryInfo) :=
  let expectedPath := pathFor owner repo in
  Promise.then_ (Outside.fs_pathExists o expectedPath)
    (fun exists_ =>
       if exists_ : bool
       then Promise.resolve (Some {| path := expectedPath; type := actual_directory |})
       else Promise.resolve None).

Definition freshDirectoryFor (user repo branch : string) (cloneOpts : CloneOptions)
  : Promise.Task Outside.World CloneDirectoryInfo :=
  Promise.then_ (createFreshDir user repo)
    (fun path w =>
       (Fulfilled {| path := path; type := parent_directory |},
        {| Outside.trace := Outside.trace w;
           Outside.directoriesUsed := S (Outside.directoriesUsed w) |})).

Definition StableDirectoryManager_directoryFor
    (owner repo branch : string) (cloneOpts : CloneOptions)
  : Promise.Task Outside.World CloneDirectoryInfo :=
  if reuseDirectories opts then
    Promise.then_ (existingDirectoryFor owner repo branch cloneOpts)
      (fun existing =>
         match existing with
         | Some info => Promise.resolve info
         | None => freshDirectoryFor owner repo branch cloneOpts
         end)
  else freshDirectoryFor owner repo branch cloneOpts.

End Manager.

(** A manager is its options, with the answers of the outside it
    works in. *)
Record StableDirectoryManager : Type :=
  mkStableDirectoryManager {
    outside : Outside.Answers;
    opts : StableDirectoryManagerOpts
  }.

#[global] Instance StableDirectoryManager_DirectoryManager (CloneOptions : Type)
  : DirectoryManager CloneOptions StableDirectoryManager :=
  fun this => StableDirectoryManager_directoryFor (outside this) CloneOptions (opts this).

End StableDirectoryManager.

(** ** GitCommandGitProject: cloning *)

Module GitCommandGitProject.

Record GitCommandGitProject : Type :=
  mkGitCommandGitProject {
    id : RemoteRepoRef.RemoteRepoRef;
    baseDir : string;
    credentials : ProjectOperationCredentials;
    branch : option string;
    remote : option string;
    newRepo : bool
  }.

(** [fromBaseDir], that is the constructor: no branch and no remote
    yet, and [newRepo] is false. *)
Definition fromBaseDir (id : RemoteRepoRef.RemoteRepoRef) (baseDir : string)
    (credentials : ProjectOperationCredentials) : GitCommandGitProject :=
  {| id := id; baseDir := baseDir; credentials := credentials;
     branch := None; remote := None; newRepo := false |}.

Section Cloning.

Variable o : Outside.Answers.
Variables CloneOptions M : Type.
Context `{DirectoryManager CloneOptions M}.

(** The command of [clone]. *)
Definition clone_command (credentials : ProjectOperationCredentials)
    (id : RemoteRepoRef.RemoteRepoRef) : string :=
  if String.eqb (RemoteRepoRef.sha id) "master"
  then "git clone --depth 1 " ++ RemoteRepoRef.cloneUrl id credentials
  else "git clone " ++ RemoteRepoRef.cloneUrl id credentials ++
       "; cd " ++ RemoteRepoRef.repo id ++ ";git checkout " ++ RemoteRepoRef.sha id.

Definition clone (credentials : ProjectOperationCredentials)
    (id : RemoteRepoRef.RemoteRepoRef) (cloneOpts : CloneOptions) (directoryManager : M)
  : Promise.Task Outside.World LocalProject.LocalProject :=
  Promise.then_
    (directoryFor directoryManager (RemoteRepoRef.owner id) (RemoteRepoRef.repo id)
       (RemoteRepoRef.sha id) cloneOpts)
    (fun cloneDirectoryInfo =>
       match type cloneDirectoryInfo with
       | parent_directory =>
           let repoDir := path cloneDirectoryInfo ++ "/" ++ RemoteRepoRef.repo id in
           let command := clone_command credentials id in
           Promise.then_ (Outside.exec o command (path cloneDirectoryInfo))
             (fun _ => Outside.fromExistingDirectory o id repoDir)
       | actual_directory =>
           Promise.reject
             (ErrorObject "actual-directory clone directory type not yet supported")
       end).

(** The path into the repository, as [cloned] adds it to the directory
    of the clone. *)
Definition pathIntoRepo (id : RemoteRepoRef.RemoteRepoRef) : string :=
  match RemoteRepoRef.path id with
  | None => ""
  | Some "" => ""
  | Some p => if JsString.startsWith p "/" then p else "/" ++ p
  end.

Definition cloned (credentials : ProjectOperationCredentials)
    (id : RemoteRepoRef.RemoteRepoRef) (cloneOpts : CloneOptions) (directoryManager : M)
  : Promise.Task Outside.World GitCommandGitProject :=
  Promise.then_ (clone credentials id cloneOpts directoryManager)
    (fun p =>
       Promise.resolve
         (fromBaseDir id (LocalProject.baseDir p ++ pathIntoRepo id) credentials)).

End Cloning.

End GitCommandGitProject.

(** ** GitCommandGitProject: the git commands

    The methods that run git through [runCommand].  A method changes
    the fields of the project at once and returns a promise; here it
    returns the project with its new fields and the task of that
    promise.  The [target] of a result is the project itself and is
    left out of the result.  The methods that go to GitHub over http
    are not modelled. *)

Module Git.

Import GitCommandGitProject.

(** The double quote. *)
Definition dquote : string := String (Ascii.ascii_of_nat 34) "".

(** A possibly undefined string in a template literal. *)
Definition template (v : option string) : string :=
  match v with
  | Some s => s
  | None => "undefined"
  end.

(** [!!v] for a possibly undefined string. *)
Definition truthy (v : option string) : bool :=
  match v with
  | Some s => negb (String.eqb s "")
  | None => false
  end.

(** What [runCommand] resolves with, as far as the methods read it. *)
Record CommandResult : Type :=
  mkCommandResult {
    success : bool;
    stdout : option string
  }.

Inductive RunCommand : Type :=
| runCommand_call (cmd cwd : string).

Definition Trace : Type := list RunCommand.

(** How [runCommand] answers, given the commands run before. *)
Definition Answers : Type := Trace -> string -> string -> Settled CommandResult.

(** [p.catch(onRejected)]. *)
Definition catch_ {A : Type} (p : Promise.Task Trace A)
    (onRejected : Reason -> Promise.Task Trace A) : Promise.Task Trace A :=
  fun tr =>
    match p tr with
    | (Fulfilled value, tr') => (Fulfilled value, tr')
    | (Rejected reason, tr') => onRejected reason tr'
    end.

Section Methods.

Variable answer : Answers.

(** The reference [new GitHubRepoRef(owner, repo)], built outside the
    sources at hand. *)
Variable GitHubRepoRef : string -> string -> RemoteRepoRef.RemoteRepoRef.

Definition runCommand (cmd cwd : string) : Promise.Task Trace CommandResult :=
  fun tr => (answer tr cmd cwd, (tr ++ [runCommand_call cmd cwd])%list).

Definition runCommandInCurrentWorkingDirectory (this : GitCommandGitProject) (cmd : string)
  : Promise.Task Trace CommandResult :=
  Promise.then_ (runCommand cmd (baseDir this)) (fun result => Promise.resolve result).

Definition Method : Type :=
  GitCommandGitProject -> GitCommandGitProject * Promise.Task Trace CommandResult.

Definition init : Method :=
  fun this =>
    let this1 :=
      {| id := id this; baseDir := baseDir this; credentials := credentials this;
         branch := Some "master"; remote := remote this; newRepo := true |} in
    (this1, runCommandInCurrentWorkingDirectory this1 "git init").

Definition isClean : Method :=
  fun this =>
    (this,
     Promise.then_ (runCommandInCurrentWorkingDirectory this "git status --porcelain")
       (fun commandResult =>
          Promise.resolve
            {| success :=
                 match stdout commandResult with
                 | Some out => String.eqb out ""
                 | None => false
                 end;
               stdout := stdout commandResult |})).

Definition setRemote (remote_ : string) : Method :=
  fun this =>
    let this1 :=
      {| id := id this; baseDir := baseDir this; credentials := credentials this;
         branch := branch this; remote := Some remote_; newRepo := newRepo this |} in
    (this1, runCommandInCurrentWorkingDirectory this1 ("git remote add origin " ++ remote_)).

Definition setGitHubRemote (owner repo : string) : Method :=
  fun this =>
    let this1 :=
      {| id := GitHubRepoRef owner repo; baseDir := baseDir this;
         credentials := credentials this;
         branch := branch this; remote := remote this; newRepo := newRepo this |} in
    setRemote
      ("https://" ++ token (credentials this1) ++ "@github.com/" ++ owner ++ "/" ++ repo ++ ".git")
      this1.

Definition setUserConfig (user email : string) : Method :=
  fun this =>
    (this,
     Promise.then_
       (runCommandInCurrentWorkingDirectory this
          ("git config user.name " ++ dquote ++ user ++ dquote))
       (fun _ =>
          runCommandInCurrentWorkingDirectory this
            ("git config user.email " ++ dquote ++ email ++ dquote))).

Definition commit (message : string) : Method :=
  fun this =>
    (this,
     Promise.then_ (runCommandInCurrentWorkingDirectory this "git add .")
       (fun _ =>
          runCommandInCurrentWorkingDirectory this
            ("git commit -a -m " ++ dquote ++ message ++ dquote))).

Definition checkout (sha : string) : Method :=
  fun this => (this, runCommandInCurrentWorkingDirectory this ("git checkout " ++ sha)).

Definition push : Method :=
  fun this =>
    (this,
     if truthy (branch this) && truthy (remote this) then
       catch_
         (runCommandInCurrentWorkingDirectory this
            ("git push " ++ template (remote this) ++ " " ++ template (branch this)))
         (fun err => Promise.reject err)
     else
       catch_
         (runCommandInCurrentWorkingDirectory this
            ("git push --set-upstream origin " ++ template (branch this)))
         (fun err => Promise.reject err)).

Definition createBranch (name : string) : Method :=
  fun this =>
    let this1 :=
      {| id := id this; baseDir := baseDir this; credentials := credentials this;
         branch := Some name; remote := remote this; newRepo := newRepo this |} in
    (this1,
     Promise.then_ (runCommandInCurrentWorkingDirectory this1 ("git branch " ++ name))
       (fun _ => runCommandInCurrentWorkingDirectory this1 ("git checkout " ++ name))).

(** The calls of a caller, one after the other; a call is made
    whatever became of the promises of the calls before it. *)
Inductive MethodCall : Type :=
| Init
| IsClean
| SetRemote (remote_ : string)
| SetGitHubRemote (owner repo : string)
| SetUserConfig (user email : string)
| Commit (message : string)
| Checkout (sha : string)
| Push
| CreateBranch (name : string).

Definition method (m : MethodCall) : Method :=
  match m with
  | Init => init
  | IsClean => isClean
  | SetRemote remote_ => setRemote remote_
  | SetGitHubRemote owner repo => setGitHubRemote owner repo
  | SetUserConfig user email => setUserConfig user email
  | Commit message => commit message
  | Checkout sha => checkout sha
  | Push => push
  | CreateBranch name => createBranch name
  end.

Definition perform (m : MethodCall) (state : GitCommandGitProject * Trace)
  : GitCommandGitProject * Trace :=
  let (this1, task) := method m (fst state) in
  (this1, snd (task (snd state))).

Definition perform_all (ms : list MethodCall) (state : GitCommandGitProject * Trace)
  : GitCommandGitProject * Trace :=
  fold_left (fun st m => perform m st) ms state.

End Methods.

(** A call that assigns the branch of the project. *)
Definition names_branch (m : MethodCall) : bool :=
  match m with
  | Init | CreateBranch _ => true
  | _ => false
  end.

End Git.

(** The calls by which a [StableDirectoryManager] looks for the
    directories of [user] and makes them: the test of the path of the
    repository, and [stat] and [mkdir] of the base directory and of the
    directory of the user. *)
Definition prepares (opts : StableDirectoryManager.StableDirectoryManagerOpts)
    (user repo : string) (c : Outside.OutsideCall) : Prop :=
  let userDir := StableDirectoryManager.baseDir opts ++ "/" ++ user in
  c = Outside.FsPathExists (StableDirectoryManager.pathFor opts user repo) \/
  c = Outside.FsStat (StableDirectoryManager.baseDir opts) \/
  c = Outside.FsMkdir (StableDirectoryManager.baseDir opts) \/
  c = Outside.FsStat userDir \/
  c = Outside.FsMkdir userDir.

(** An outside in which every directory asked for is there, every call
    succeeds and a project is opened in the directory it is asked
    for; and one in which what is there is no directory. *)
Definition all_there : Outside.Answers :=
  {| Outside.stat_answer := fun _ _ => Fulfilled (Outside.mkStats true);
     Outside.mkdir_answer := fun _ _ => Fulfilled tt;
     Outside.remove_answer := fun _ _ => Fulfilled tt;
     Outside.pathExists_answer := fun _ _ => Fulfilled true;
     Outside.exec_answer := fun _ _ _ => Fulfilled tt;
     Outside.fromExistingDirectory_answer :=
       fun _ _ dir => Fulfilled (LocalProject.mkLocalProject dir) |}.

Definition files_only : Outside.Answers :=
  {| Outside.stat_answer := fun _ _ => Fulfilled (Outside.mkStats false);
     Outside.mkdir_answer := fun _ _ => Rejected (ErrorObject "EEXIST");
     Outside.remove_answer := fun _ _ => Fulfilled tt;
     Outside.pathExists_answer := fun _ _ => Fulfilled true;
     Outside.exec_answer := fun _ _ _ => Fulfilled tt;
     Outside.fromExistingDirectory_answer :=
       fun _ _ dir => Fulfilled (LocalProject.mkLocalProject dir) |}.

Definition working_opts (reuse : bool) : StableDirectoryManager.StableDirectoryManagerOpts :=
  {| StableDirectoryManager.reuseDirectories := reuse;
     StableDirectoryManager.cleanOnExit := Some false;
     StableDirectoryManager.baseDir := "/home/me/.atomist-working" |}.

Definition some_ref : RemoteRepoRef.RemoteRepoRef :=
  {| RemoteRepoRef.owner := "atomist";
     RemoteRepoRef.repo := "client";
     RemoteRepoRef.sha := "master";
     RemoteRepoRef.url := "https://github.com/atomist/client";
     RemoteRepoRef.cloneUrl := fun c => "https://" ++ token c ++ "@github.com/atomist/client.git";
     RemoteRepoRef.path := Some "src" |}.

Definition nothing_called : Outside.World :=
  {| Outside.trace := []; Outside.directoriesUsed := 0 |}.

(** A graph client that knows the chat teams [teams], and a delegate
    that answers with the number of calls made before. *)
Definition chat_teams (teams : list string)
  : DefaultSlackMessageClient.Collaborators string (list string) unit nat :=
  {| DefaultSlackMessageClient.executeQuery_answer :=
       fun _ _ =>
         Fulfilled (DefaultSlackMessageClient.mkQueryResult
                      (map DefaultSlackMessageClient.mkChatTeamNode teams));
     DefaultSlackMessageClient.respond_answer := fun tr _ _ => Fulfilled (List.length tr);
     DefaultSlackMessageClient.send_answer := fun tr _ _ _ => Fulfilled (List.length tr) |}.

(** The branch and the remote of a project after the calls [ms], as
    the calls alone determine them. *)
Definition branch_after (ms : list Git.MethodCall) (b : option string) : option string :=
  fold_left
    (fun b m =>
       match m with
       | Git.Init => Some "master"
       | Git.CreateBranch name => Some name
       | _ => b
       end) ms b.

Definition remote_after (credentials : ProjectOperationCredentials)
    (ms : list Git.MethodCall) (r : option string) : option string :=
  fold_left
    (fun r m =>
       match m with
       | Git.SetRemote remote_ => Some remote_
       | Git.SetGitHubRemote owner repo =>
           Some ("https://" ++ token credentials ++ "@github.com/" ++ owner ++ "/" ++ repo ++ ".git")
       | _ => r
       end) ms r.

(** A command run in the directory [dir]. *)
Definition run_in (dir : string) (c : Git.RunCommand) : Prop :=
  match c with
  | Git.runCommand_call _ cwd => cwd = dir
  end.

(** [runCommand] when git always succeeds and prints nothing. *)
Definition git_succeeds : Git.Answers :=
  fun _ _ _ => Fulfilled (Git.mkCommandResult true (Some "")).

(** [runCommand] when every command fails. *)
Definition git_fails : Git.Answers :=
  fun _ cmd _ => Rejected (ErrorObject ("Command failed: " ++ cmd)).

(** ** Scenarios *)

(** The end-to-end scenario of the specification: a file with one
    match, the name of its package. *)
Definition package_file : FileHit :=
  new_FileHit "package com.foo.bar;" [mkTreeNode "packageName" "com.foo.bar" 8 []].

(** A file with three matches, the literals at offsets 2, 6 and 10. *)
Definition literals_file : FileHit :=
  new_FileHit "x=1;y=1;z=1;"
    [mkTreeNode "literal" "1" 2 []; mkTreeNode "literal" "1" 6 []; mkTreeNode "literal" "1" 10 []].

(** The first literal is set, then the third, then the second. *)
Definition literals_calls : list Call :=
  [SetValue 0 "11111"; SetValue 2 "3"; SetValue 1 "11111"].

(** A file with two matches of five characters each, at offsets 10 and 30. *)
Definition two_nodes_file : FileHit :=
  new_FileHit "0123456789aaaaa9876543210+-*/=bbbbb;"
    [mkTreeNode "first" "aaaaa" 10 []; mkTreeNode "second" "bbbbb" 30 []].

(** A two-level tree, and an engine to try the nested predicate with:
    a path expression is a name, which selects the children of that
    name, and the empty name is a failure. *)
Definition two_level_tree : TreeNode :=
  mkTreeNode "root" "" 0
    [mkTreeNode "class" "A" 0 [mkTreeNode "method" "f" 2 []];
     mkTreeNode "class" "B" 10 [mkTreeNode "field" "x" 12 []]].

Definition children_named : ExpressionEngine string :=
  fun node name =>
    if String.eqb name "" then FailureResult "no name"
    else SuccessResult
           (filter (fun child => String.eqb (node_name child) name) (node_children node)).

(** * Properties *)

(** ** The library functions on examples *)

Example replace_ex1 : JsString.replace "package com.foo.bar;" "com.foo.bar" "x.y" = "package x.y;".
Proof. reflexivity. Qed.
Example replace_ex2 : JsString.replace "abc" "b" "$$" = "a$c".
Proof. reflexivity. Qed.
Example replace_ex3 : JsString.replace "abc" "" "<$'>" = "<abc>abc".
Proof. reflexivity. Qed.
Example replace_ex4 : JsString.replace "abc" "b" "[$&$1$]" = "a[b$1$]c".
Proof. reflexivity. Qed.

Example sort_ex1 : forall e, JsArray.sort (fun a b => (a - b)%Z) e [3; 1; 2; 5; 4]%Z = [1; 2; 3; 4; 5]%Z.
Proof. intros []; reflexivity. Qed.
Example sort_ex2 : forall e, JsArray.sort (fun a b => (b - a)%Z) e [3; 1; 2; 5; 4; 4; 0]%Z = [5; 4; 4; 3; 2; 1; 0]%Z.
Proof. intros []; reflexivity. Qed.
Example sort_ex3 : JsArray.sort (fun a b => (- a)%Z) JsArray.InsertionSortEngine [10; 30; 20]%Z = [10; 30; 20]%Z.
Proof. reflexivity. Qed.
Example sort_ex4 : JsArray.sort (fun a b => (- a)%Z) JsArray.TimSortEngine [10; 30; 20]%Z = [20; 30; 10]%Z.
Proof. reflexivity. Qed.

(** ** Facts on strings *)

Lemma append_assoc (a b c : string) : (a ++ b) ++ c = a ++ b ++ c.
Proof. induction a as [|x a IH]; simpl; [reflexivity | now rewrite IH]. Qed.

Lemma length_append (a b : string) :
  String.length (a ++ b) = String.length a + String.length b.
Proof. induction a as [|x a IH]; simpl; [reflexivity | now rewrite IH]. Qed.

Lemma take_drop (n : nat) (s : string) : JsString.take n s ++ JsString.drop n s = s.
Proof.
  revert s; induction n as [|n IH]; intros [|c s]; simpl; try reflexivity.
  now rewrite IH.
Qed.

Lemma take_append (a b : string) : JsString.take (String.length a) (a ++ b) = a.
Proof. induction a as [|x a IH]; simpl; [now destruct b | now rewrite IH]. Qed.

Lemma drop_append (a b : string) : JsString.drop (String.length a) (a ++ b) = b.
Proof. induction a as [|x a IH]; simpl; [now destruct b | exact IH]. Qed.

Lemma drop_drop (n m : nat) (s : string) :
  JsString.drop n (JsString.drop m s) = JsString.drop (m + n) s.
Proof.
  revert s; induction m as [|m IH]; intros s; simpl; [reflexivity|].
  destruct s as [|c s]; [now destruct n | apply IH].
Qed.

Lemma take_take_drop (n k : nat) (s : string) :
  JsString.take n s ++ JsString.take k (JsString.drop n s) = JsString.take (n + k) s.
Proof.
  revert s; induction n as [|n IH]; intros s; simpl.
  - reflexivity.
  - destruct s as [|c s]; simpl; [now destruct k | now rewrite IH].
Qed.

Lemma length_take (n : nat) (s : string) :
  String.length (JsString.take n s) = Nat.min n (String.length s).
Proof.
  revert s; induction n as [|n IH]; intros [|c s]; simpl; try reflexivity.
  now rewrite IH.
Qed.

Lemma startsWith_append (p t : string) : JsString.startsWith (p ++ t) p = true.
Proof.
  induction p as [|c p IH]; simpl; [reflexivity|].
  now rewrite Ascii.eqb_refl, IH.
Qed.

Lemma startsWith_inv (s p : string) :
  JsString.startsWith s p = true -> s = p ++ JsString.drop (String.length p) s.
Proof.
  revert s; induction p as [|c p IH]; intros s H; simpl in *.
  - now destruct s.
  - destruct s as [|d s]; [discriminate|].
    apply andb_true_iff in H as [Hc Hp].
    apply Ascii.eqb_eq in Hc; subst d.
    now rewrite <- (IH s Hp).
Qed.

Lemma indexOf_startsWith (s p : string) :
  JsString.startsWith s p = true -> JsString.indexOf s p = Some 0.
Proof. intros H; destruct s; simpl; now rewrite H. Qed.

(** [indexOf] finds an occurrence, and the first one. *)
Lemma indexOf_Some (s p : string) (k : nat) :
  JsString.indexOf s p = Some k ->
  occurs_at k p s = true /\ forall j, j < k -> occurs_at j p s = false.
Proof.
  unfold occurs_at.
  revert k; induction s as [|c s IH]; intros k; simpl.
  - destruct (JsString.startsWith "" p) eqn:E; [|discriminate].
    intros [= <-]; split; [exact E | intros j Hj; lia].
  - destruct (JsString.startsWith (String c s) p) eqn:E.
    + intros [= <-]; split; [exact E | intros j Hj; lia].
    + destruct (JsString.indexOf s p) as [k'|]; [|discriminate].
      simpl; intros [= <-].
      destruct (IH k' eq_refl) as [H1 H2]; split; [exact H1|].
      intros [|j] Hj; [exact E | apply H2; lia].
Qed.

Lemma indexOf_None (s p : string) :
  JsString.indexOf s p = None -> forall j, occurs_at j p s = false.
Proof.
  unfold occurs_at.
  induction s as [|c s IH]; simpl.
  - destruct (JsString.startsWith "" p) eqn:E; [discriminate|].
    intros _ [|j]; exact E.
  - destruct (JsString.startsWith (String c s) p) eqn:E; [discriminate|].
    destruct (JsString.indexOf s p) as [k'|]; [discriminate|].
    intros _ [|j]; [exact E | now apply IH].
Qed.

Lemma occurs_at_split (k : nat) (p s : string) :
  occurs_at k p s = true ->
  s = JsString.take k s ++ p ++ JsString.drop (k + String.length p) s.
Proof.
  unfold occurs_at; intros H.
  apply startsWith_inv in H.
  rewrite drop_drop in H.
  rewrite <- H.
  symmetry; apply take_drop.
Qed.

Lemma GetSubstitution_no_dollar (matched before after r : string) :
  no_dollar r = true -> JsString.GetSubstitution matched before after r = r.
Proof.
  induction r as [|c r IH]; simpl; [reflexivity|].
  intros H; apply andb_true_iff in H as [Hc Hr].
  apply negb_true_iff in Hc; rewrite Hc.
  now rewrite IH.
Qed.

(** ** Facts on [sort] with the comparison function of [doReplace] *)

Lemma by_offset_not_positive (u v : Update) : (0 <? by_offset u v)%Z = false.
Proof. unfold by_offset; apply Z.ltb_ge; lia. Qed.

Lemma insert_down_by_offset (u : Update) (sorted_rev : list Update) :
  JsArray.insert_down by_offset u sorted_rev = u :: sorted_rev.
Proof.
  destruct sorted_rev as [|tmp below]; simpl; [reflexivity|].
  now rewrite by_offset_not_positive.
Qed.

(** The insertion sort never moves an update: [u => -u.offset] is never
    positive, and only a positive answer moves an element. *)
Lemma InsertionSort_by_offset (us : list Update) :
  JsArray.InsertionSort by_offset us = us.
Proof.
  unfold JsArray.InsertionSort.
  assert (G : forall l acc,
             fold_left (fun sorted_rev element =>
                          JsArray.insert_down by_offset element sorted_rev) l acc
             = (rev l ++ acc)%list).
  { induction l as [|x l IH]; intros acc; simpl; [reflexivity|].
    now rewrite IH, insert_down_by_offset, <- app_assoc. }
  now rewrite G, app_nil_r, rev_involutive.
Qed.

Lemma count_run_by_offset (previous : Update) (rest : list Update) :
  Forall (fun u => 0 < offset u) rest ->
  JsArray.count_run by_offset true previous rest = List.length rest.
Proof.
  intros H; revert previous; induction H as [|u rest Hu _ IH]; intros previous; simpl.
  - reflexivity.
  - replace (0 <=? by_offset u previous)%Z with false.
    + now rewrite IH.
    + symmetry; apply Z.leb_gt; unfold by_offset; lia.
Qed.

(** TimSort takes updates of positive offsets, whatever they are, for
    one descending run, and reverses it. *)
Lemma TimSort_by_offset (us : list Update) :
  Forall (fun u => 0 < offset u) us ->
  JsArray.TimSort by_offset us = rev us.
Proof.
  intros H.
  destruct us as [|x0 [|x1 rest]]; try reflexivity.
  unfold JsArray.TimSort, JsArray.CountAndMakeRun.
  inversion H as [|? ? _ H1]; subst.
  inversion H1 as [|? ? Hx1 Hrest]; subst.
  replace (by_offset x1 x0 <? 0)%Z with true
    by (symmetry; apply Z.ltb_lt; unfold by_offset; lia).
  rewrite count_run_by_offset by assumption.
  change (2 + List.length rest) with (List.length (x0 :: x1 :: rest)).
  rewrite firstn_all, skipn_all, app_nil_r.
  rewrite <- length_rev, firstn_all, skipn_all.
  reflexivity.
Qed.

(** The fuel of [binary_search] is enough: the search from [left] to
    [right] returns the same place with any fuel of at least
    [right - left]. *)
Lemma binary_search_fuel {A : Type} (comparefn : A -> A -> Z) (sorted : list A) (pivot : A) :
  forall fuel fuel' left right,
    right - left <= fuel -> right - left <= fuel' ->
    JsArray.binary_search comparefn fuel sorted pivot left right
    = JsArray.binary_search comparefn fuel' sorted pivot left right.
Proof.
  induction fuel as [|fuel IH]; intros fuel' left right H H'.
  - destruct fuel' as [|fuel']; simpl; [reflexivity|].
    replace (left <? right)%nat with false; [reflexivity|].
    symmetry; apply Nat.ltb_ge; lia.
  - destruct fuel' as [|fuel']; simpl.
    + replace (left <? right)%nat with false; [reflexivity|].
      symmetry; apply Nat.ltb_ge; lia.
    + destruct (left <? right)%nat eqn:E; [|reflexivity].
      apply Nat.ltb_lt in E.
      assert (D : Nat.div2 (right - left) < right - left) by (apply Nat.lt_div2; lia).
      set (half := Nat.div2 (right - left)) in *; clearbody half.
      destruct (nth_error sorted (left + half)) as [x|]; [|reflexivity].
      destruct (comparefn pivot x <? 0)%Z; apply IH; lia.
Qed.

(** ** The flush step on a replacement without dollar signs *)

Lemma replace_literal (s p r : string) :
  no_dollar r = true ->
  JsString.replace s p r =
  match JsString.indexOf s p with
  | None => s
  | Some k => JsString.take k s ++ r ++ JsString.drop (k + String.length p) s
  end.
Proof.
  intros H; unfold JsString.replace.
  destruct (JsString.indexOf s p) as [k|]; [|reflexivity].
  now rewrite GetSubstitution_no_dollar.
Qed.

Lemma occurs_at_drop (n j : nat) (p s : string) :
  occurs_at j p (JsString.drop n s) = occurs_at (n + j) p s.
Proof. unfold occurs_at; now rewrite drop_drop. Qed.

(** One step of the flush, for an update whose new text has no dollar
    sign.  When the original text occurs in the content at or after
    the offset of the update, its first such occurrence, at [pos], is
    replaced by the new text and the text before and after it is kept;
    otherwise the content is returned as it is. *)
Theorem apply_update_literal (content : string) (u : Update) :
  no_dollar (currentValue u) = true ->
  match JsString.indexOf (JsString.drop (offset u) content) (initialValue u) with
  | Some k =>
      let pos := offset u + k in
      occurs_at pos (initialValue u) content = true /\
      (forall j, offset u <= j < pos -> occurs_at j (initialValue u) content = false) /\
      apply_update content u =
        JsString.take pos content ++ currentValue u ++
        JsString.drop (pos + String.length (initialValue u)) content
  | None =>
      (forall j, offset u <= j -> occurs_at j (initialValue u) content = false) /\
      apply_update content u = content
  end.
Proof.
  intros H.
  unfold apply_update, JsString.substr; simpl JsString.drop at 1.
  rewrite replace_literal by exact H.
  destruct (JsString.indexOf (JsString.drop (offset u) content) (initialValue u)) as [k|] eqn:E.
  - apply indexOf_Some in E as [E1 E2].
    rewrite occurs_at_drop in E1.
    cbv zeta; split; [exact E1|]; split.
    + intros j Hj.
      replace j with (offset u + (j - offset u)) by lia.
      rewrite <- occurs_at_drop; apply E2; lia.
    + rewrite drop_drop, <- append_assoc, take_take_drop.
      now rewrite Nat.add_assoc.
  - split.
    + intros j Hj.
      replace j with (offset u + (j - offset u)) by lia.
      rewrite <- occurs_at_drop.
      now apply indexOf_None.
    + apply take_drop.
Qed.

Lemma apply_update_literal_witness :
  no_dollar "com.foo.barx" = true /\
  apply_update "package com.foo.bar;" (mkUpdate "com.foo.bar" "com.foo.barx" 8)
  = "package com.foo.barx;".
Proof.
  split; [reflexivity|].
  exact (proj2 (proj2 (apply_update_literal "package com.foo.bar;"
                         (mkUpdate "com.foo.bar" "com.foo.barx" 8) eq_refl))).
Defined.

(** An update that inserts (its original text is empty) a text without
    dollar sign into a content that reaches its offset: the text goes
    in at the offset, between the two parts of the content. *)
Theorem apply_update_insertion (content : string) (u : Update) :
  initialValue u = "" ->
  no_dollar (currentValue u) = true ->
  offset u <= String.length content ->
  apply_update content u =
    JsString.take (offset u) content ++ currentValue u ++ JsString.drop (offset u) content /\
  String.length (JsString.take (offset u) content) = offset u.
Proof.
  intros Hi Hd Hl; split.
  - unfold apply_update, JsString.substr; simpl JsString.drop at 1.
    rewrite replace_literal by exact Hd.
    rewrite Hi, indexOf_startsWith by reflexivity.
    reflexivity.
  - rewrite length_take; lia.
Qed.

Lemma apply_update_insertion_witness :
  apply_update "abc" (mkUpdate "" "xy" 1) = "axybc".
Proof.
  exact (proj1 (apply_update_insertion "abc" (mkUpdate "" "xy" 1) eq_refl eq_refl
                  (le_S _ _ (le_S _ _ (le_n 1))))).
Defined.

(** ** The order of application *)

(** With the insertion sort (arrays of at most 10 elements) the updates
    are applied in the order of the calls that recorded them. *)
Theorem application_order_InsertionSort (us : list Update) :
  List.length us <= 10 ->
  application_order JsArray.InsertionSortEngine us = us.
Proof. intros _; apply InsertionSort_by_offset. Qed.

Lemma application_order_InsertionSort_witness :
  application_order JsArray.InsertionSortEngine [mkUpdate "a" "b" 10; mkUpdate "c" "d" 30]
  = [mkUpdate "a" "b" 10; mkUpdate "c" "d" 30].
Proof.
  apply (application_order_InsertionSort [mkUpdate "a" "b" 10; mkUpdate "c" "d" 30]).
  simpl; lia.
Defined.

(** With TimSort (arrays of fewer than 64 elements), updates of
    positive offsets are applied in the reverse of the order of the
    calls that recorded them. *)
Theorem application_order_TimSort (us : list Update) :
  List.length us < 64 ->
  Forall (fun u => 0 < offset u) us ->
  application_order JsArray.TimSortEngine us = rev us.
Proof. intros _; apply TimSort_by_offset. Qed.

Lemma application_order_TimSort_witness :
  application_order JsArray.TimSortEngine [mkUpdate "a" "b" 30; mkUpdate "c" "d" 10]
  = [mkUpdate "c" "d" 10; mkUpdate "a" "b" 30].
Proof.
  apply (application_order_TimSort [mkUpdate "a" "b" 30; mkUpdate "c" "d" 10]).
  - simpl; lia.
  - repeat constructor.
Defined.

(** C1, on the code: the flush does not visit the updates in descending
    order of offset.  After the calls of [literals_calls] on the three
    matches at offsets 2, 6 and 10, the insertion sort leaves the
    updates in the order of the calls (2, 10, 6) and TimSort reverses
    it (6, 10, 2): with either, an update of a smaller offset is
    applied before one of a larger offset. *)
Theorem doReplace_order_not_descending :
  exists fh,
    calls literals_calls literals_file = Some fh /\
    map offset (updates fh) = [2; 10; 6] /\
    map offset (application_order JsArray.InsertionSortEngine (updates fh)) = [2; 10; 6] /\
    map offset (application_order JsArray.TimSortEngine (updates fh)) = [6; 10; 2] /\
    forall e, descending_offsets (application_order e (updates fh)) = false.
Proof.
  eexists; split; [reflexivity|].
  repeat split; intros []; reflexivity.
Qed.

(** What that order costs: in the same scenario the flush writes a
    content in which the edits have landed on the wrong literals,
    whereas the updates applied in descending order of offset give the
    three literals their new values. *)
Lemma doReplace_order_corrupts :
  exists fh,
    calls literals_calls literals_file = Some fh /\
    file (flush JsArray.InsertionSortEngine fh) = "x=111111111;y=3;z=1;" /\
    file (flush JsArray.TimSortEngine fh) = "x=11111;y=11113;z=1;" /\
    fold_left apply_update
      [mkUpdate "1" "3" 10; mkUpdate "1" "11111" 6; mkUpdate "1" "11111" 2] (file fh)
    = "x=11111;y=11111;z=3;".
Proof. eexists; repeat split; reflexivity. Qed.

(** ** The flush step *)

(** C2, on the code: a flush step does not put the replacement in as it
    is written when it holds a dollar pattern.  Replacing [a] at
    offset 5 of [PATH=a] by the text [$$HOME] writes [PATH=$HOME]. *)
Theorem apply_update_dollar :
  let content := "PATH=a" in
  let u := mkUpdate "a" "$$HOME" 5 in
  apply_update content u = "PATH=$HOME" /\
  apply_update content u <>
    JsString.take 5 content ++ currentValue u ++ JsString.drop (5 + 1) content.
Proof. split; [reflexivity | discriminate]. Qed.

(** C10, on the code: an insertion whose text holds a dollar pattern
    does not insert that text.  Inserting [$'] at offset 1 of [abc]
    writes [abcbc]: the text after the offset is written twice. *)
Theorem apply_update_insertion_dollar :
  let content := "abc" in
  let u := mkUpdate "" "$'" 1 in
  offset u <= String.length content /\
  apply_update content u = "abcbc" /\
  apply_update content u <>
    JsString.take 1 content ++ currentValue u ++ JsString.drop 1 content.
Proof. split; [simpl; lia | split; [reflexivity | discriminate]]. Qed.

(** ** Flushing a [FileHit] *)

Lemma application_order_nil (e : JsArray.Engine) : application_order e [] = [].
Proof. destruct e; reflexivity. Qed.

Lemma application_order_singleton (e : JsArray.Engine) (u : Update) :
  application_order e [u] = [u].
Proof. destruct e; reflexivity. Qed.

(** C3: a [FileHit] that is built and flushed with no call in between
    writes back the content of the file as it was. *)
Theorem flush_without_edits (e : JsArray.Engine) (content : string) (nodes : list TreeNode) :
  file (flush e (new_FileHit content nodes)) = content.
Proof.
  unfold flush, doReplace, new_FileHit; simpl.
  now rewrite application_order_nil.
Qed.

(** The end-to-end scenario: the name of the package is set once and
    the flush writes it into the file. *)
Lemma flush_package_file (e : JsArray.Engine) :
  option_map (fun fh => file (flush e fh)) (calls [SetValue 0 "com.foo.barx"] package_file)
  = Some "package com.foo.barx;".
Proof. destruct e; reflexivity. Qed.

(** C4, on the code: setting a value twice is not setting it once.
    Each call of the setter records an update from the initial value,
    and the flush applies both: the second one finds the initial value
    again at the start of the new one. *)
Theorem set_value_twice_differs (e : JsArray.Engine) :
  option_map (fun fh => file (flush e fh))
    (calls [SetValue 0 "com.foo.barx"] package_file)
  = Some "package com.foo.barx;" /\
  option_map (fun fh => file (flush e fh))
    (calls [SetValue 0 "com.foo.barx"; SetValue 0 "com.foo.barx"] package_file)
  = Some "package com.foo.barxx;".
Proof. destruct e; split; reflexivity. Qed.

(** C5, on the code: a new value of 20 characters that holds dollar
    patterns does not take 20 characters in the file.  The match at
    offset 10 is set to 20 dollar signs, of which the flush writes 10:
    the text of the match at offset 30 ends up at 35, not at 45. *)
Theorem offset_safety_dollar (e : JsArray.Engine) :
  let v := "$$$$$$$$$$$$$$$$$$$$" in
  String.length v = 20 /\
  exists fh,
    set_value 0 v two_nodes_file = Some fh /\
    file (flush e fh) = "0123456789$$$$$$$$$$9876543210+-*/=bbbbb;" /\
    JsString.substr (file (flush e fh)) 35 (Some 5) = "bbbbb" /\
    JsString.substr (file (flush e fh)) 45 (Some 5) <> "bbbbb".
Proof.
  split; [reflexivity|].
  eexists; split; [reflexivity|].
  destruct e; repeat split; discriminate.
Qed.

(** Offset safety for a new value without dollar sign.  In a content
    [A ++ V1 ++ B ++ V2 ++ C] with matches [V1] at offset 10 and [V2]
    at offset 30, five characters each, setting the first match to a
    value [N] of 20 characters and flushing writes
    [A ++ N ++ B ++ V2 ++ C], where [V2] stands at offset 45. *)
Theorem offset_safety_literal (e : JsArray.Engine)
    (A V1 B V2 C N name1 name2 : string) (children1 children2 : list TreeNode) :
  String.length A = 10 -> String.length V1 = 5 -> String.length B = 15 ->
  String.length V2 = 5 -> String.length N = 20 -> no_dollar N = true ->
  exists fh,
    set_value 0 N
      (new_FileHit (A ++ V1 ++ B ++ V2 ++ C)
         [mkTreeNode name1 V1 10 children1; mkTreeNode name2 V2 30 children2]) = Some fh /\
    file (flush e fh) = A ++ N ++ B ++ V2 ++ C /\
    JsString.substr (file (flush e fh)) 45 (Some 5) = V2.
Proof.
  intros HA HV1 HB HV2 HN Hd.
  set (fh := {| file := A ++ V1 ++ B ++ V2 ++ C;
                matches := [ {| m_node := mkTreeNode name1 V1 10 children1;
                                m_initialValue := V1; m_currentValue := N |};
                             instrument (mkTreeNode name2 V2 30 children2) ];
                updates := [mkUpdate V1 N 10] |}).
  exists fh; split; [reflexivity|].
  assert (F : file (flush e fh) = A ++ N ++ B ++ V2 ++ C).
  { unfold flush, doReplace, fh.
    cbv [file updates].
    rewrite application_order_singleton.
    cbv [fold_left apply_update offset initialValue currentValue JsString.substr].
    change (JsString.drop 0 (A ++ V1 ++ B ++ V2 ++ C)) with (A ++ V1 ++ B ++ V2 ++ C).
    rewrite <- HA, take_append, drop_append.
    rewrite replace_literal by exact Hd.
    rewrite indexOf_startsWith by apply startsWith_append.
    change (0 + String.length V1) with (String.length V1).
    change (JsString.take 0 (V1 ++ B ++ V2 ++ C)) with EmptyString.
    now rewrite drop_append. }
  split; [exact F|].
  rewrite F.
  unfold JsString.substr.
  replace (A ++ N ++ B ++ V2 ++ C) with ((A ++ N ++ B) ++ V2 ++ C)
    by (now rewrite !append_assoc).
  replace 45 with (String.length (A ++ N ++ B)) by (rewrite !length_append; lia).
  rewrite drop_append, <- HV2; apply take_append.
Qed.

Lemma offset_safety_literal_witness :
  exists fh,
    set_value 0 "cccccccccccccccccccc" two_nodes_file = Some fh /\
    file (flush JsArray.TimSortEngine fh) = "0123456789cccccccccccccccccccc9876543210+-*/=bbbbb;" /\
    JsString.substr (file (flush JsArray.TimSortEngine fh)) 45 (Some 5) = "bbbbb".
Proof.
  exact (offset_safety_literal JsArray.TimSortEngine
           "0123456789" "aaaaa" "9876543210+-*/=" "bbbbb" ";" "cccccccccccccccccccc"
           "first" "second" [] []
           eq_refl eq_refl eq_refl eq_refl eq_refl eq_refl).
Defined.

(** ** Calls on the matches before the flush *)

Lemma nth_error_set_nth {A : Type} (i : nat) (x y : A) (l : list A) :
  nth_error l i = Some y -> nth_error (set_nth i x l) i = Some x.
Proof.
  revert l; induction i as [|i IH]; intros [|z l]; simpl; try discriminate.
  - reflexivity.
  - apply IH.
Qed.

Lemma length_set_nth {A : Type} (i : nat) (x : A) (l : list A) :
  List.length (set_nth i x l) = List.length l.
Proof.
  revert l; induction i as [|i IH]; intros [|z l]; simpl; try reflexivity.
  now rewrite IH.
Qed.

(** A call leaves the content of the file alone and keeps the number
    of matches. *)
Lemma call_frame (c : Call) (fh fh' : FileHit) :
  call c fh = Some fh' ->
  file fh' = file fh /\ List.length (matches fh') = List.length (matches fh).
Proof.
  destruct c as [i v2|i content|i content]; simpl;
    unfold set_value, append, prepend;
    destruct (nth_error (matches fh) i) as [m|]; try discriminate;
    intros [= <-]; simpl; split; try reflexivity.
  apply length_set_nth.
Qed.

(** Calls on matches that exist all go through. *)
Lemma calls_total (cs : list Call) (fh : FileHit) :
  Forall (fun c => call_index c < List.length (matches fh)) cs ->
  exists fh', calls cs fh = Some fh'.
Proof.
  revert fh; induction cs as [|c cs IH]; intros fh H; simpl.
  - now exists fh.
  - inversion H as [|? ? Hc Hcs]; subst.
    assert (E : exists fh1, call c fh = Some fh1).
    { apply nth_error_Some in Hc.
      destruct c as [i v2|i content|i content]; simpl in *;
        unfold set_value, append, prepend;
        destruct (nth_error (matches fh) i); try congruence; eauto. }
    destruct E as [fh1 E]; rewrite E.
    apply IH.
    destruct (call_frame _ _ _ E) as [_ L].
    now rewrite L.
Qed.

(** C6: whatever calls of the setter, of [append] and of [prepend] are
    made, the content of the file is what it was before them; and
    after a call of the setter, the getter of that match returns the
    value that was set. *)
Theorem no_mutation_before_flush (cs : list Call) (fh fh' : FileHit) :
  calls cs fh = Some fh' ->
  file fh' = file fh /\
  forall i v2 fh'',
    set_value i v2 fh' = Some fh'' ->
    get_value i fh'' = Some v2 /\ file fh'' = file fh.
Proof.
  revert fh; induction cs as [|c cs IH]; intros fh; simpl.
  - intros [= <-]; split; [reflexivity|].
    intros i v2 fh''; unfold set_value, get_value.
    destruct (nth_error (matches fh) i) as [m|] eqn:E; [|discriminate].
    intros [= <-]; simpl.
    now rewrite (nth_error_set_nth _ _ _ _ E).
  - destruct (call c fh) as [fh1|] eqn:E; [|discriminate].
    intros H.
    destruct (call_frame _ _ _ E) as [F _].
    destruct (IH _ H) as [H1 H2].
    split; [congruence|].
    intros i v2 fh'' S.
    destruct (H2 _ _ _ S) as [G1 G2].
    split; [exact G1 | congruence].
Qed.

Lemma no_mutation_before_flush_witness :
  exists fh',
    calls [SetValue 0 "com.foo.barx"; Append 0 ".baz"; Prepend 0 "org."] package_file = Some fh' /\
    file fh' = "package com.foo.bar;" /\
    get_value 0 fh' = Some "com.foo.barx".
Proof.
  eexists; split; [reflexivity|]; split.
  - exact (proj1 (no_mutation_before_flush
                    [SetValue 0 "com.foo.barx"; Append 0 ".baz"; Prepend 0 "org."]
                    package_file _ eq_refl)).
  - reflexivity.
Defined.

(** C9: on a match [m], [append] records an update whose original text
    is empty and whose offset is the offset of the node plus the length
    of the current value of the match (the one its getter returns), and
    [prepend] records one whose original text is empty and whose offset
    is the offset of the node. *)
Theorem append_prepend_record (i : nat) (content : string) (fh : FileHit) (m : MatchResult) :
  nth_error (matches fh) i = Some m ->
  get_value i fh = Some (m_currentValue m) /\
  (exists fh',
      append i content fh = Some fh' /\
      updates fh' =
        (updates fh ++
         [mkUpdate "" content (node_offset (m_node m) + String.length (m_currentValue m))])%list) /\
  (exists fh',
      prepend i content fh = Some fh' /\
      updates fh' = (updates fh ++ [mkUpdate "" content (node_offset (m_node m))])%list).
Proof.
  intros H; unfold get_value, append, prepend; rewrite H; simpl.
  split; [reflexivity|]; split; eexists; split; reflexivity.
Qed.

Lemma append_prepend_record_witness :
  exists fh1 fh2,
    append 0 ".baz" package_file = Some fh1 /\
    updates fh1 = [mkUpdate "" ".baz" 19] /\
    prepend 0 "org." package_file = Some fh2 /\
    updates fh2 = [mkUpdate "" "org." 8].
Proof.
  destruct (append_prepend_record 0 ".baz" package_file _ eq_refl)
    as [_ [[fh1 [A1 U1]] _]].
  destruct (append_prepend_record 0 "org." package_file _ eq_refl)
    as [_ [_ [fh2 [A2 U2]]]].
  exists fh1, fh2; repeat split; assumption.
Defined.

(** ** Predicates *)

(** C7: [ValuePredicate.evaluate] is true exactly when the value of the
    node under test is the string the predicate holds, whatever nodes
    were returned so far. *)
Theorem ValuePredicate_evaluate_iff (PathExpression : Type) (this : ValuePredicate)
    (nodeToTest : TreeNode) (returnedNodes : list TreeNode)
    (ee : ExpressionEngine PathExpression) :
  evaluate this nodeToTest returnedNodes ee = true <->
  node_value nodeToTest = vp_value this.
Proof. unfold evaluate, ValuePredicate_evaluate; apply String.eqb_eq. Qed.

(** C8: [NestedPathExpressionPredicate.evaluate] is true exactly when
    the engine, run on the node under test with the path expression of
    the predicate, returns a success with at least one node: it is
    false on a failure and on an empty success. *)
Theorem NestedPathExpressionPredicate_evaluate_iff (PathExpression : Type)
    (this : NestedPathExpressionPredicate PathExpression)
    (nodeToTest : TreeNode) (returnedNodes : list TreeNode)
    (ee : ExpressionEngine PathExpression) :
  evaluate this nodeToTest returnedNodes ee = true <->
  exists nodes,
    ee nodeToTest (pathExpression PathExpression this) = SuccessResult nodes /\ nodes <> [].
Proof.
  unfold evaluate, NestedPathExpressionPredicate_evaluate.
  destruct (ee nodeToTest (pathExpression PathExpression this)) as [nodes|message]; simpl.
  - destruct nodes as [|n nodes]; simpl; split.
    + discriminate.
    + intros [nodes' [[= <-] H]]; now contradiction H.
    + intros _; exists (n :: nodes); split; [reflexivity | discriminate].
    + reflexivity.
  - split; [discriminate | intros [nodes [H _]]; discriminate].
Qed.

(** The nested predicate on the two-level tree: of the two children of
    the root only the first has a child named [method]; a failure of
    the engine is no match. *)
Example NestedPathExpressionPredicate_two_level :
  map (fun child =>
         evaluate (mkNestedPathExpressionPredicate string "method") child [] children_named)
      (node_children two_level_tree) = [true; false] /\
  evaluate (mkNestedPathExpressionPredicate string "") two_level_tree [] children_named = false.
Proof. split; reflexivity. Qed.

(** ** What the calls leave behind *)

Lemma nth_error_set_nth_other {A : Type} (i j : nat) (x : A) (l : list A) :
  i <> j -> nth_error (set_nth j x l) i = nth_error l i.
Proof.
  revert i l; induction j as [|j IH]; intros [|i] [|z l] H; simpl; try reflexivity.
  - contradiction.
  - apply IH; congruence.
Qed.

Lemma map_set_nth {A B : Type} (f : A -> B) (i : nat) (x y : A) (l : list A) :
  nth_error l i = Some y -> f x = f y -> map f (set_nth i x l) = map f l.
Proof.
  revert l; induction i as [|i IH]; intros [|z l]; simpl; try discriminate.
  - intros [= ->] E; now rewrite E.
  - intros H E; now rewrite (IH l H E).
Qed.

Lemma Forall_set_nth {A : Type} (P : A -> Prop) (i : nat) (x : A) (l : list A) :
  Forall P l -> P x -> Forall P (set_nth i x l).
Proof.
  intros H Hx; revert i; induction H as [|z l Hz Hl IH]; intros [|i]; simpl;
    constructor; auto.
Qed.

Lemma call_get_value (c : Call) (fh fh1 : FileHit) (i : nat) (v : string) :
  call c fh = Some fh1 ->
  get_value i fh = Some v ->
  get_value i fh1 = Some (last_set i [c] v).
Proof.
  unfold get_value.
  destruct c as [j v2|j content|j content]; simpl;
    unfold set_value, append, prepend;
    destruct (nth_error (matches fh) j) as [m|] eqn:E; try discriminate;
    intros [= <-]; simpl; try (intros H; exact H).
  destruct (Nat.eqb_spec i j) as [->|N].
  - intros _; now rewrite (nth_error_set_nth _ _ _ _ E).
  - now rewrite (nth_error_set_nth_other _ _ _ _ N).
Qed.

(** The getter of a match returns the value of the last call of its
    setter, whatever else was called in between, on this match or on
    others; with no such call it returns the value the match had. *)
Theorem get_value_last_set (cs : list Call) (fh fh' : FileHit) (i : nat) (v : string) :
  calls cs fh = Some fh' ->
  get_value i fh = Some v ->
  get_value i fh' = Some (last_set i cs v).
Proof.
  revert fh v; induction cs as [|c cs IH]; intros fh v; simpl.
  - now intros [= <-].
  - destruct (call c fh) as [fh1|] eqn:E; [|discriminate].
    intros H G.
    pose proof (call_get_value _ _ _ _ _ E G) as G1.
    rewrite (IH _ _ H G1).
    destruct c; reflexivity.
Qed.

Lemma get_value_last_set_witness :
  exists fh',
    calls [SetValue 0 "a.b"; Append 0 ".c"; SetValue 0 "d.e"; Prepend 0 "f."] package_file = Some fh' /\
    get_value 0 fh' = Some "d.e".
Proof.
  eexists; split; [reflexivity|].
  exact (get_value_last_set
           [SetValue 0 "a.b"; Append 0 ".c"; SetValue 0 "d.e"; Prepend 0 "f."]
           package_file _ 0 "com.foo.bar" eq_refl eq_refl).
Defined.

Lemma call_log (c : Call) (fh fh1 : FileHit) :
  call c fh = Some fh1 ->
  exists u, updates fh1 = (updates fh ++ [u])%list /\ currentValue u = call_text c.
Proof.
  destruct c as [j v2|j content|j content]; simpl;
    unfold set_value, append, prepend;
    destruct (nth_error (matches fh) j) as [m|]; try discriminate;
    intros [= <-]; simpl; eexists; split; reflexivity.
Qed.

(** Every call records one update, at the end of the array: after the
    calls [cs] the new texts of the updates are those there were,
    followed by the texts of the calls in the order of the calls. *)
Theorem calls_log (cs : list Call) (fh fh' : FileHit) :
  calls cs fh = Some fh' ->
  map currentValue (updates fh') =
    (map currentValue (updates fh) ++ map call_text cs)%list.
Proof.
  revert fh; induction cs as [|c cs IH]; intros fh; simpl.
  - intros [= <-]; now rewrite app_nil_r.
  - destruct (call c fh) as [fh1|] eqn:E; [|discriminate].
    intros H; rewrite (IH _ H).
    destruct (call_log _ _ _ E) as [u [U T]].
    now rewrite U, map_app, <- app_assoc, <- T.
Qed.

Lemma calls_log_witness :
  exists fh',
    calls literals_calls literals_file = Some fh' /\
    map currentValue (updates fh') = ["11111"; "3"; "11111"].
Proof.
  eexists; split; [reflexivity|].
  exact (calls_log literals_calls literals_file _ eq_refl).
Defined.

Lemma parse_time_new (content : string) (nodes : list TreeNode) :
  parse_time nodes (new_FileHit content nodes).
Proof.
  unfold parse_time, new_FileHit; simpl; repeat split.
  - rewrite map_map; simpl; apply map_id.
  - apply Forall_forall; intros m H.
    apply in_map_iff in H as [node [<- _]]; reflexivity.
  - constructor.
Qed.

Lemma parse_time_call (nodes : list TreeNode) (c : Call) (fh fh1 : FileHit) :
  parse_time nodes fh -> call c fh = Some fh1 -> parse_time nodes fh1.
Proof.
  intros [N [I U]] E.
  assert (M : forall j m, nth_error (matches fh) j = Some m ->
                In (m_node m) nodes /\ m_initialValue m = node_value (m_node m)).
  { intros j m H; split.
    - rewrite <- N; apply in_map; eapply nth_error_In; exact H.
    - rewrite Forall_forall in I; apply I; eapply nth_error_In; exact H. }
  destruct c as [j v2|j content|j content]; simpl in E;
    unfold set_value, append, prepend in E;
    destruct (nth_error (matches fh) j) as [m|] eqn:Ej; try discriminate;
    injection E as <-; destruct (M _ _ Ej) as [Hin Hinit];
    unfold parse_time; simpl; repeat split; try assumption.
  - now rewrite (map_set_nth m_node _ _ _ _ Ej).
  - apply Forall_set_nth; [exact I | exact Hinit].
  - apply Forall_app; split; [assumption|].
    constructor; [|constructor].
    exists (m_node m); split; [exact Hin | left; simpl; split; [exact Hinit | reflexivity]].
  - apply Forall_app; split; [assumption|].
    constructor; [|constructor].
    exists (m_node m); split; [exact Hin | right; simpl; split; [reflexivity | lia]].
  - apply Forall_app; split; [assumption|].
    constructor; [|constructor].
    exists (m_node m); split; [exact Hin | right; simpl; split; [reflexivity | lia]].
Qed.

(** The updates of a [FileHit] are all taken from the parse: whatever
    calls are made after the constructor, the matches keep their nodes,
    and every update recorded either replaces the value a node was
    parsed with, at the offset of that node (never a value set in
    between), or inserts a text at or after the offset of a node. *)
Theorem updates_from_parse_time (content : string) (nodes : list TreeNode)
    (cs : list Call) (fh : FileHit) :
  calls cs (new_FileHit content nodes) = Some fh ->
  map m_node (matches fh) = nodes /\
  map m_initialValue (matches fh) = map node_value nodes /\
  Forall (recorded_from nodes) (updates fh).
Proof.
  intros H.
  assert (P : parse_time nodes fh).
  { pose proof (parse_time_new content nodes) as P0.
    revert H P0; generalize (new_FileHit content nodes).
    induction cs as [|c cs IH]; intros fh0; simpl.
    - now intros [= <-].
    - destruct (call c fh0) as [fh1|] eqn:E; [|discriminate].
      intros H P0; apply (IH _ H); eapply parse_time_call; eassumption. }
  destruct P as [N [I U]]; repeat split; try assumption.
  rewrite <- N, map_map.
  apply map_ext_in; intros m Hm.
  rewrite Forall_forall in I; now apply I.
Qed.

Lemma updates_from_parse_time_witness :
  exists fh,
    calls [SetValue 0 "a.b"; SetValue 0 "c.d"] package_file = Some fh /\
    map initialValue (updates fh) = ["com.foo.bar"; "com.foo.bar"] /\
    Forall (recorded_from [mkTreeNode "packageName" "com.foo.bar" 8 []]) (updates fh).
Proof.
  eexists; split; [reflexivity|]; split; [reflexivity|].
  exact (proj2 (proj2 (updates_from_parse_time "package com.foo.bar;"
                         [mkTreeNode "packageName" "com.foo.bar" 8 []]
                         [SetValue 0 "a.b"; SetValue 0 "c.d"] _ eq_refl))).
Defined.

(** ** One edit, and two, from the constructor to the flush *)

Lemma apply_update_at (A V C N : string) :
  no_dollar N = true ->
  apply_update (A ++ V ++ C) (mkUpdate V N (String.length A)) = A ++ N ++ C.
Proof.
  intros Hd.
  unfold apply_update, JsString.substr; simpl offset; simpl initialValue; simpl currentValue.
  change (JsString.drop 0 (A ++ V ++ C)) with (A ++ V ++ C).
  rewrite take_append, drop_append, replace_literal by exact Hd.
  rewrite indexOf_startsWith by apply startsWith_append.
  change (0 + String.length V) with (String.length V).
  change (JsString.take 0 (V ++ C)) with EmptyString.
  now rewrite drop_append.
Qed.

Lemma apply_insert_at (A C text : string) :
  no_dollar text = true ->
  apply_update (A ++ C) (mkUpdate "" text (String.length A)) = A ++ text ++ C.
Proof. intros Hd; apply (apply_update_at A "" C text Hd). Qed.

Lemma flush_one_update (e : JsArray.Engine) (fh : FileHit) (u : Update) :
  updates fh = [u] -> file (flush e fh) = apply_update (file fh) u.
Proof.
  intros H; unfold flush, doReplace.
  rewrite H, application_order_singleton; reflexivity.
Qed.

(** One call of the setter, then the flush.  When the node of a match
    carries its value [V] and the offset of that value in the content
    [A ++ V ++ C], setting the match to a value [N] without dollar sign
    and flushing writes [A ++ N ++ C], with either sort algorithm; until
    the flush the file keeps its content while the getter returns [N]. *)
Theorem flush_single_set (e : JsArray.Engine) (nodes : list TreeNode) (i : nat)
    (node : TreeNode) (A C N : string) :
  nth_error nodes i = Some node ->
  node_offset node = String.length A ->
  no_dollar N = true ->
  exists fh,
    set_value i N (new_FileHit (A ++ node_value node ++ C) nodes) = Some fh /\
    get_value i fh = Some N /\
    file fh = A ++ node_value node ++ C /\
    file (flush e fh) = A ++ N ++ C.
Proof.
  intros Hn Ho Hd.
  assert (Hm : nth_error (matches (new_FileHit (A ++ node_value node ++ C) nodes)) i
               = Some (instrument node))
    by (unfold new_FileHit; simpl; now rewrite nth_error_map, Hn).
  unfold set_value; rewrite Hm.
  eexists; split; [reflexivity|]; split; [|split].
  - unfold get_value; simpl matches.
    now rewrite (nth_error_set_nth _ _ _ _ Hm).
  - reflexivity.
  - rewrite (flush_one_update e _ (mkUpdate (node_value node) N (String.length A)))
      by (simpl; now rewrite Ho).
    exact (apply_update_at A (node_value node) C N Hd).
Qed.

Lemma flush_single_set_witness :
  exists fh,
    set_value 0 "org.example" package_file = Some fh /\
    file (flush JsArray.InsertionSortEngine fh) = "package org.example;".
Proof.
  destruct (flush_single_set JsArray.InsertionSortEngine
              [mkTreeNode "packageName" "com.foo.bar" 8 []] 0
              (mkTreeNode "packageName" "com.foo.bar" 8 []) "package " ";" "org.example"
              eq_refl eq_refl eq_refl) as [fh [S [_ [_ F]]]].
  exists fh; split; [exact S | exact F].
Defined.

(** One call of [append] or of [prepend], then the flush.  Under the
    same condition on the node, appending a text without dollar sign
    and flushing writes it right after the value, and prepending it
    writes it right before the value; the value itself stays. *)
Theorem flush_single_insertion (e : JsArray.Engine) (nodes : list TreeNode) (i : nat)
    (node : TreeNode) (A C text : string) :
  nth_error nodes i = Some node ->
  node_offset node = String.length A ->
  no_dollar text = true ->
  (exists fh,
      append i text (new_FileHit (A ++ node_value node ++ C) nodes) = Some fh /\
      file (flush e fh) = A ++ node_value node ++ text ++ C) /\
  (exists fh,
      prepend i text (new_FileHit (A ++ node_value node ++ C) nodes) = Some fh /\
      file (flush e fh) = A ++ text ++ node_value node ++ C).
Proof.
  intros Hn Ho Hd.
  assert (Hm : nth_error (matches (new_FileHit (A ++ node_value node ++ C) nodes)) i
               = Some (instrument node))
    by (unfold new_FileHit; simpl; now rewrite nth_error_map, Hn).
  unfold append, prepend; rewrite Hm.
  split; eexists; (split; [reflexivity|]).
  - rewrite (flush_one_update e _
               (mkUpdate "" text (String.length (A ++ node_value node))))
      by (simpl; now rewrite Ho, length_append).
    simpl file.
    rewrite <- (append_assoc A (node_value node) C).
    rewrite apply_insert_at by exact Hd.
    now rewrite append_assoc.
  - rewrite (flush_one_update e _ (mkUpdate "" text (String.length A)))
      by (simpl; now rewrite Ho).
    exact (apply_insert_at A (node_value node ++ C) text Hd).
Qed.

Lemma flush_single_insertion_witness :
  (exists fh,
      append 0 ".baz" package_file = Some fh /\
      file (flush JsArray.TimSortEngine fh) = "package com.foo.bar.baz;") /\
  (exists fh,
      prepend 0 ".baz" package_file = Some fh /\
      file (flush JsArray.TimSortEngine fh) = "package .bazcom.foo.bar;").
Proof.
  exact (flush_single_insertion JsArray.TimSortEngine
           [mkTreeNode "packageName" "com.foo.bar" 8 []] 0
           (mkTreeNode "packageName" "com.foo.bar" 8 []) "package " ";" ".baz"
           eq_refl eq_refl eq_refl).
Defined.

Lemma two_updates_descending (A V1 B V2 C N1 N2 : string) :
  no_dollar N1 = true -> no_dollar N2 = true ->
  apply_update
    (apply_update (A ++ V1 ++ B ++ V2 ++ C)
       (mkUpdate V2 N2 (String.length A + String.length V1 + String.length B)))
    (mkUpdate V1 N1 (String.length A))
  = A ++ N1 ++ B ++ N2 ++ C.
Proof.
  intros H1 H2.
  replace (A ++ V1 ++ B ++ V2 ++ C) with ((A ++ V1 ++ B) ++ V2 ++ C)
    by (now rewrite !append_assoc).
  replace (String.length A + String.length V1 + String.length B)
    with (String.length (A ++ V1 ++ B)) by (rewrite !length_append; lia).
  rewrite apply_update_at by exact H2.
  rewrite !append_assoc.
  exact (apply_update_at A V1 (B ++ N2 ++ C) N1 H1).
Qed.

Lemma flush_two_updates_InsertionSort (fh : FileHit) (u v : Update) :
  updates fh = [u; v] ->
  file (flush JsArray.InsertionSortEngine fh)
  = apply_update (apply_update (file fh) u) v.
Proof.
  intros H; unfold flush, doReplace, application_order; simpl JsArray.sort.
  rewrite H, InsertionSort_by_offset; reflexivity.
Qed.

Lemma flush_two_updates_TimSort (fh : FileHit) (u v : Update) :
  updates fh = [u; v] ->
  0 < offset v ->
  file (flush JsArray.TimSortEngine fh)
  = apply_update (apply_update (file fh) v) u.
Proof.
  intros H Hv; unfold flush, doReplace, application_order; simpl JsArray.sort.
  rewrite H.
  unfold JsArray.TimSort, JsArray.CountAndMakeRun.
  replace (by_offset v u <? 0)%Z with true
    by (symmetry; apply Z.ltb_lt; unfold by_offset; lia).
  reflexivity.
Qed.

Lemma set_value_Some (i : nat) (v2 : string) (fh : FileHit) (m : MatchResult) :
  nth_error (matches fh) i = Some m ->
  set_value i v2 fh =
  Some {| file := file fh;
          matches := set_nth i {| m_node := m_node m;
                                  m_initialValue := m_initialValue m;
                                  m_currentValue := v2 |} (matches fh);
          updates := (updates fh ++
                      [mkUpdate (m_initialValue m) v2 (node_offset (m_node m))])%list |}.
Proof. intros H; unfold set_value; now rewrite H. Qed.

Lemma two_sets_recorded (content : string) (nodes : list TreeNode) (i j : nat)
    (n1 n2 : TreeNode) (N1 N2 : string) :
  i <> j ->
  nth_error nodes i = Some n1 ->
  nth_error nodes j = Some n2 ->
  exists fh,
    calls [SetValue i N1; SetValue j N2] (new_FileHit content nodes) = Some fh /\
    file fh = content /\
    updates fh = [mkUpdate (node_value n1) N1 (node_offset n1);
                  mkUpdate (node_value n2) N2 (node_offset n2)].
Proof.
  intros Hij H1 H2.
  assert (M1 : nth_error (matches (new_FileHit content nodes)) i = Some (instrument n1))
    by (unfold new_FileHit; simpl; now rewrite nth_error_map, H1).
  assert (M2 : nth_error (matches (new_FileHit content nodes)) j = Some (instrument n2))
    by (unfold new_FileHit; simpl; now rewrite nth_error_map, H2).
  cbn [calls call].
  rewrite (set_value_Some _ N1 _ _ M1).
  rewrite (set_value_Some j N2 _ (instrument n2))
    by (simpl matches; rewrite nth_error_set_nth_other by congruence; exact M2).
  eexists; split; [reflexivity|]; split; reflexivity.
Qed.

(** Two matches set, under the insertion sort.  In a content
    [A ++ V1 ++ B ++ V2 ++ C] whose two values are matches that carry
    their offsets, setting the second match first and the first match
    second (to values without dollar sign) and flushing writes
    [A ++ N1 ++ B ++ N2 ++ C]: each value is replaced in its place,
    whatever the lengths of the old and new values. *)
Theorem flush_two_sets_InsertionSort (nodes : list TreeNode) (i j : nat)
    (n1 n2 : TreeNode) (A B C N1 N2 : string) :
  i <> j ->
  nth_error nodes i = Some n1 ->
  nth_error nodes j = Some n2 ->
  node_offset n1 = String.length A ->
  node_offset n2 = String.length A + String.length (node_value n1) + String.length B ->
  no_dollar N1 = true -> no_dollar N2 = true ->
  exists fh,
    calls [SetValue j N2; SetValue i N1]
      (new_FileHit (A ++ node_value n1 ++ B ++ node_value n2 ++ C) nodes) = Some fh /\
    file (flush JsArray.InsertionSortEngine fh) = A ++ N1 ++ B ++ N2 ++ C.
Proof.
  intros Hij H1 H2 O1 O2 D1 D2.
  destruct (two_sets_recorded (A ++ node_value n1 ++ B ++ node_value n2 ++ C)
              nodes j i n2 n1 N2 N1 (not_eq_sym Hij) H2 H1) as [fh [E [F U]]].
  exists fh; split; [exact E|].
  rewrite (flush_two_updates_InsertionSort _ _ _ U), F, O1, O2.
  apply two_updates_descending; assumption.
Qed.

Lemma flush_two_sets_InsertionSort_witness :
  exists fh,
    calls [SetValue 1 "twenty-two"; SetValue 0 "eleven"]
      (new_FileHit "x=1;y=2;z=3;" [mkTreeNode "literal" "1" 2 []; mkTreeNode "literal" "2" 6 []])
    = Some fh /\
    file (flush JsArray.InsertionSortEngine fh) = "x=eleven;y=twenty-two;z=3;".
Proof.
  exact (flush_two_sets_InsertionSort
           [mkTreeNode "literal" "1" 2 []; mkTreeNode "literal" "2" 6 []] 0 1
           (mkTreeNode "literal" "1" 2 []) (mkTreeNode "literal" "2" 6 [])
           "x=" ";y=" ";z=3;" "eleven" "twenty-two"
           (fun H : 0 = 1 => O_S 0 H) eq_refl eq_refl eq_refl eq_refl eq_refl eq_refl).
Defined.

(** Two matches set, under TimSort.  In the same content, setting the
    first match first and the second match second and flushing writes
    [A ++ N1 ++ B ++ N2 ++ C], provided the offset of the second match
    is positive: the order of the calls that gives the right content
    is the reverse of the one the insertion sort needs. *)
Theorem flush_two_sets_TimSort (nodes : list TreeNode) (i j : nat)
    (n1 n2 : TreeNode) (A B C N1 N2 : string) :
  i <> j ->
  nth_error nodes i = Some n1 ->
  nth_error nodes j = Some n2 ->
  node_offset n1 = String.length A ->
  node_offset n2 = String.length A + String.length (node_value n1) + String.length B ->
  0 < node_offset n2 ->
  no_dollar N1 = true -> no_dollar N2 = true ->
  exists fh,
    calls [SetValue i N1; SetValue j N2]
      (new_FileHit (A ++ node_value n1 ++ B ++ node_value n2 ++ C) nodes) = Some fh /\
    file (flush JsArray.TimSortEngine fh) = A ++ N1 ++ B ++ N2 ++ C.
Proof.
  intros Hij H1 H2 O1 O2 P D1 D2.
  destruct (two_sets_recorded (A ++ node_value n1 ++ B ++ node_value n2 ++ C)
              nodes i j n1 n2 N1 N2 Hij H1 H2) as [fh [E [F U]]].
  exists fh; split; [exact E|].
  rewrite (flush_two_updates_TimSort _ _ _ U P), F, O1, O2.
  apply two_updates_descending; assumption.
Qed.

Lemma flush_two_sets_TimSort_witness :
  exists fh,
    calls [SetValue 0 "eleven"; SetValue 1 "twenty-two"]
      (new_FileHit "x=1;y=2;z=3;" [mkTreeNode "literal" "1" 2 []; mkTreeNode "literal" "2" 6 []])
    = Some fh /\
    file (flush JsArray.TimSortEngine fh) = "x=eleven;y=twenty-two;z=3;".
Proof.
  exact (flush_two_sets_TimSort
           [mkTreeNode "literal" "1" 2 []; mkTreeNode "literal" "2" 6 []] 0 1
           (mkTreeNode "literal" "1" 2 []) (mkTreeNode "literal" "2" 6 [])
           "x=" ";y=" ";z=3;" "eleven" "twenty-two"
           (fun H : 0 = 1 => O_S 0 H) eq_refl eq_refl eq_refl eq_refl
           (Nat.lt_0_succ 5) eq_refl eq_refl).
Defined.

(** ** The sort keeps the updates *)

Section SortPermutation.

Variable A : Type.
Variable comparefn : A -> A -> Z.







End SortPermutation.



(** ** DefaultSlackMessageClient *)

Section SlackClientFacts.

Import DefaultSlackMessageClient.

Variables Msg Destinations MessageOptions Names Response : Type.
Variable toStringArray : Names -> list string.
Variable addressSlackUsers : string -> list string -> Destinations.
Variable addressSlackChannels : string -> list string -> Destinations.
Variable c : Collaborators Msg Destinations MessageOptions Response.
Variable graphClient : bool.

(** [lookupChatTeam] resolves in one case only: the client has a graph
    client and the query returns exactly one chat team, whose [id] is
    the result.  With no chat team at all it is rejected like with
    several. *)
Theorem lookupChatTeam_exactly_one
    (tr tr' : Trace Msg Destinations MessageOptions) (chatTeamId : string) :
  lookupChatTeam c graphClient tr = (Fulfilled chatTeamId, tr') <->
  graphClient = true /\
  tr' = (tr ++ [ExecuteQuery Msg Destinations MessageOptions Query])%list /\
  exists team,
    executeQuery_answer c tr Query = Fulfilled (mkQueryResult [team]) /\
    id team = chatTeamId.
Proof.
  unfold lookupChatTeam, Promise.then_, Promise.reject, Promise.resolve, executeQuery.
  destruct graphClient; [|split; [discriminate | intros [H _]; discriminate]].
  destruct (executeQuery_answer c tr Query) as [[teams]|reason]; simpl.
  - destruct teams as [|team [|team' teams]]; simpl; split;
      try discriminate;
      try (intros [_ [_ [t [[= ] _]]]]; fail).
    + intros [= <- <-]; repeat split; exists team; split; reflexivity.
    + intros [_ [-> [t [[= <-] <-]]]]; reflexivity.
  - split; [discriminate | intros [_ [_ [t [H _]]]]; discriminate].
Qed.

Lemma lookup_then_send (destinationsOf : string -> Destinations)
    (msg : Msg) (options : option MessageOptions) :
  sends_after_lookup c graphClient destinationsOf msg options
    (Promise.then_ (lookupChatTeam c graphClient)
       (fun chatTeamId => delegate_send c msg (destinationsOf chatTeamId) options)).
Proof.
  intros tr; split.
  - intros team -> E.
    unfold lookupChatTeam, Promise.then_, executeQuery, delegate_send.
    rewrite E; simpl.
    now rewrite <- app_assoc.
  - intros H.
    unfold lookupChatTeam, Promise.then_, Promise.reject, executeQuery.
    destruct graphClient; [|eexists; left; reflexivity].
    destruct (executeQuery_answer c tr Query) as [[teams]|reason] eqn:E; simpl.
    + destruct teams as [|team [|team' teams]]; simpl.
      * eexists; right; reflexivity.
      * now contradiction (H team eq_refl).
      * eexists; right; reflexivity.
    + eexists; right; reflexivity.
Qed.

(** [addressUsers] and [addressChannels] send only after the lookup of
    the chat team: with a graph client and exactly one chat team, the
    delegate is handed the message once, for the users (or channels) in
    that team, and its answer is the result; in every other case the
    result is a rejection and the delegate is not called. *)
Theorem address_sends_after_lookup (msg : Msg) (names : Names)
    (options : option MessageOptions) :
  sends_after_lookup c graphClient
    (fun chatTeamId => addressSlackUsers chatTeamId (toStringArray names)) msg options
    (addressUsers toStringArray addressSlackUsers c graphClient msg names options) /\
  sends_after_lookup c graphClient
    (fun chatTeamId => addressSlackChannels chatTeamId (toStringArray names)) msg options
    (addressChannels toStringArray addressSlackChannels c graphClient msg names options).
Proof. split; apply lookup_then_send. Qed.

End SlackClientFacts.

(** ** StableDirectoryManager and the clone of GitCommandGitProject *)

Section CloneFacts.

Import Outside StableDirectoryManager.

Variable o : Answers.
Variable CloneOptions : Type.
Variable opts : StableDirectoryManagerOpts.

Lemma repoDir_pathFor (user repo : string) :
  ((baseDir opts ++ "/" ++ user) ++ "/") ++ repo = pathFor opts user repo.
Proof. unfold pathFor; now rewrite !append_assoc. Qed.

Lemma assureDirectoryExists_resolved (name : string) (w w' : World) (u : unit) :
  assureDirectoryExists o name w = (Fulfilled u, w') ->
  (trace w' = (trace w ++ [FsStat name])%list \/
   trace w' = (trace w ++ [FsStat name; FsMkdir name])%list) /\
  directoriesUsed w' = directoriesUsed w.
Proof.
  unfold assureDirectoryExists, Promise.then2, fs_stat, fs_mkdir,
    Promise.reject, Promise.resolve.
  destruct (stat_answer o (trace w) name) as [[[|]]|reason]; simpl.
  - intros [= _ <-]; simpl; auto.
  - discriminate.
  - destruct (mkdir_answer o (trace w ++ [FsStat name]) name); [|discriminate].
    intros [= _ <-]; simpl; split; [right; now rewrite <- app_assoc | reflexivity].
Qed.

Lemma createFreshDir_resolved (user repo dir : string) (w w' : World) :
  createFreshDir o opts user repo w = (Fulfilled dir, w') ->
  dir = baseDir opts ++ "/" ++ user /\
  directoriesUsed w' = directoriesUsed w /\
  exists before,
    trace w' = (trace w ++ before ++ [FsRemove (pathFor opts user repo)])%list /\
    Forall (prepares opts user repo) before.
Proof.
  unfold createFreshDir, Promise.then_ at 1 2 3, Promise.resolve.
  destruct (assureDirectoryExists o (baseDir opts) w) as [[u1|r1] w1] eqn:E1;
    [|discriminate].
  destruct (assureDirectoryExists o (baseDir opts ++ "/" ++ user) w1) as [[u2|r2] w2] eqn:E2;
    [|discriminate].
  rewrite repoDir_pathFor.
  unfold fs_remove.
  destruct (remove_answer o (trace w2) (pathFor opts user repo)); [|discriminate].
  intros [= <- <-]; split; [reflexivity|].
  apply assureDirectoryExists_resolved in E1 as [T1 D1].
  apply assureDirectoryExists_resolved in E2 as [T2 D2].
  simpl; split; [congruence|].
  assert (P1 : prepares opts user repo (FsStat (baseDir opts))) by (right; left; reflexivity).
  assert (P2 : prepares opts user repo (FsMkdir (baseDir opts)))
    by (right; right; left; reflexivity).
  assert (P3 : prepares opts user repo (FsStat (baseDir opts ++ "/" ++ user)))
    by (right; right; right; left; reflexivity).
  assert (P4 : prepares opts user repo (FsMkdir (baseDir opts ++ "/" ++ user)))
    by (right; right; right; right; reflexivity).
  destruct T1 as [T1|T1], T2 as [T2|T2]; rewrite T2, T1;
    [ exists [FsStat (baseDir opts); FsStat (baseDir opts ++ "/" ++ user)]
    | exists [FsStat (baseDir opts);
              FsStat (baseDir opts ++ "/" ++ user); FsMkdir (baseDir opts ++ "/" ++ user)]
    | exists [FsStat (baseDir opts); FsMkdir (baseDir opts);
              FsStat (baseDir opts ++ "/" ++ user)]
    | exists [FsStat (baseDir opts); FsMkdir (baseDir opts);
              FsStat (baseDir opts ++ "/" ++ user); FsMkdir (baseDir opts ++ "/" ++ user)] ];
    (split; [now rewrite <- !app_assoc | repeat constructor; assumption]).
Qed.

Lemma freshDirectoryFor_resolved (user repo branch : string) (cloneOpts : CloneOptions)
    (info : CloneDirectoryInfo) (w w' : World) :
  freshDirectoryFor o CloneOptions opts user repo branch cloneOpts w = (Fulfilled info, w') ->
  info = {| path := baseDir opts ++ "/" ++ user; type := parent_directory |} /\
  directoriesUsed w' = S (directoriesUsed w) /\
  exists before,
    trace w' = (trace w ++ before ++ [FsRemove (pathFor opts user repo)])%list /\
    Forall (prepares opts user repo) before.
Proof.
  unfold freshDirectoryFor, Promise.then_.
  destruct (createFreshDir o opts user repo w) as [[dir|r] w1] eqn:E; [|discriminate].
  apply createFreshDir_resolved in E as [-> [D T]].
  intros [= <- <-]; simpl; repeat split; [congruence | exact T].
Qed.

(** What the manager resolves with: the directory of the repository
    itself, as an actual directory, when it reuses directories and the
    path exists (it has then made one call, the test of that path); or
    else the directory of the user, as a parent directory, once it has
    removed the directory of the repository in it and counted one more
    directory. *)
Lemma directoryFor_resolved (owner repo branch : string) (cloneOpts : CloneOptions)
    (info : CloneDirectoryInfo) (w w' : World) :
  StableDirectoryManager_directoryFor o CloneOptions opts owner repo branch cloneOpts w
  = (Fulfilled info, w') ->
  (reuseDirectories opts = true /\
   pathExists_answer o (trace w) (pathFor opts owner repo) = Fulfilled true /\
   info = {| path := pathFor opts owner repo; type := actual_directory |} /\
   w' = called (FsPathExists (pathFor opts owner repo)) w) \/
  (info = {| path := baseDir opts ++ "/" ++ owner; type := parent_directory |} /\
   directoriesUsed w' = S (directoriesUsed w) /\
   exists before,
     trace w' = (trace w ++ before ++ [FsRemove (pathFor opts owner repo)])%list /\
     Forall (prepares opts owner repo) before).
Proof.
  unfold StableDirectoryManager_directoryFor.
  destruct (reuseDirectories opts).
  - unfold existingDirectoryFor, fs_pathExists, Promise.then_, Promise.resolve.
    destruct (pathExists_answer o (trace w) (pathFor opts owner repo)) as [[|]|r] eqn:X;
      cbv beta iota; [ | | discriminate ].
    + intros [= <- <-]; left; repeat split.
    + intros E; right.
      apply freshDirectoryFor_resolved in E as [-> [D [before [T P]]]].
      simpl in D, T; repeat split; [exact D|].
      exists (FsPathExists (pathFor opts owner repo) :: before); split.
      * now rewrite T, <- app_assoc.
      * constructor; [left; reflexivity | exact P].
  - intros E; right; now apply freshDirectoryFor_resolved in E.
Qed.

Let manager : StableDirectoryManager := mkStableDirectoryManager o opts.

(** A clone into a reused directory fails.  When the manager reuses
    directories and the directory of the repository exists, [clone]
    is rejected with an error, after one call on the outside, the test
    of that path: nothing is cloned. *)
Theorem clone_into_reused_directory_fails (credentials : ProjectOperationCredentials)
    (id : RemoteRepoRef.RemoteRepoRef) (cloneOpts : CloneOptions) (w : World) :
  let repoPath := pathFor opts (RemoteRepoRef.owner id) (RemoteRepoRef.repo id) in
  reuseDirectories opts = true ->
  pathExists_answer o (trace w) repoPath = Fulfilled true ->
  GitCommandGitProject.clone o CloneOptions StableDirectoryManager
    credentials id cloneOpts manager w
  = (Rejected (ErrorObject "actual-directory clone directory type not yet supported"),
     called (FsPathExists repoPath) w).
Proof.
  intros repoPath R E.
  unfold GitCommandGitProject.clone, directoryFor, StableDirectoryManager_DirectoryManager,
    manager, StableDirectoryManager_directoryFor; simpl outside; simpl StableDirectoryManager.opts.
  rewrite R.
  unfold existingDirectoryFor, fs_pathExists, Promise.then_, Promise.resolve.
  fold repoPath; rewrite E; reflexivity.
Qed.

(** A clone that resolves has cloned afresh.  Whatever the outside
    answers, when [clone] resolves, the manager has removed the
    directory of the repository (under the base directory and the
    owner), [git clone] was then run in the directory of the owner, and
    the project was opened in the directory of the repository; all that
    was done before is to look for these directories and to make them;
    and the manager has counted one more directory. *)
Theorem clone_resolved (credentials : ProjectOperationCredentials)
    (id : RemoteRepoRef.RemoteRepoRef) (cloneOpts : CloneOptions)
    (p : LocalProject.LocalProject) (w w' : World) :
  let owner := RemoteRepoRef.owner id in
  let repo := RemoteRepoRef.repo id in
  GitCommandGitProject.clone o CloneOptions StableDirectoryManager
    credentials id cloneOpts manager w = (Fulfilled p, w') ->
  directoriesUsed w' = S (directoriesUsed w) /\
  exists before,
    Forall (prepares opts owner repo) before /\
    trace w' =
      (trace w ++ before ++
       [FsRemove (pathFor opts owner repo);
        Exec (GitCommandGitProject.clone_command credentials id) (baseDir opts ++ "/" ++ owner);
        FromExistingDirectory (pathFor opts owner repo)])%list /\
    fromExistingDirectory_answer o
      (trace w ++ before ++
       [FsRemove (pathFor opts owner repo);
        Exec (GitCommandGitProject.clone_command credentials id)
          (baseDir opts ++ "/" ++ owner)])%list
      id (pathFor opts owner repo) = Fulfilled p.
Proof.
  intros owner repo.
  unfold GitCommandGitProject.clone, directoryFor, StableDirectoryManager_DirectoryManager,
    manager; simpl outside; simpl StableDirectoryManager.opts.
  unfold Promise.then_ at 1.
  destruct (StableDirectoryManager_directoryFor o CloneOptions opts
              (RemoteRepoRef.owner id) (RemoteRepoRef.repo id) (RemoteRepoRef.sha id)
              cloneOpts w) as [[info|r] w1] eqn:E; [|discriminate].
  apply directoryFor_resolved in E as [[_ [_ [-> _]]]|[-> [D [before [T P]]]]].
  - discriminate.
  - cbv beta iota delta [type path Promise.then_ exec fromExistingDirectory].
    destruct (exec_answer o (trace w1) (GitCommandGitProject.clone_command credentials id)
                (baseDir opts ++ "/" ++ RemoteRepoRef.owner id));
      cbv beta iota; [|discriminate].
    replace ((baseDir opts ++ "/" ++ RemoteRepoRef.owner id) ++ "/" ++ RemoteRepoRef.repo id)
      with (pathFor opts owner repo) by (unfold pathFor; now rewrite !append_assoc).
    intros [= A <-]; simpl; split; [exact D|].
    exists before; split; [exact P|].
    simpl in A; rewrite T in A |- *.
    repeat rewrite <- app_assoc in A; simpl in A.
    repeat rewrite <- app_assoc; simpl.
    split; [reflexivity | exact A].
Qed.

(** The manager neither makes nor removes anything when its base
    directory is there and is not a directory: without reuse of
    directories, [directoryFor] is rejected with an error that names
    the base directory, after the one call of [stat] on it. *)
Theorem directoryFor_base_not_a_directory (owner repo branch : string)
    (cloneOpts : CloneOptions) (w : World) :
  reuseDirectories opts = false ->
  stat_answer o (trace w) (baseDir opts) = Fulfilled (mkStats false) ->
  directoryFor manager owner repo branch cloneOpts w
  = (Rejected (ErrorObject (baseDir opts ++ "exists but is not a directory.")),
     called (FsStat (baseDir opts)) w).
Proof.
  intros R E.
  change (StableDirectoryManager_directoryFor o CloneOptions opts owner repo branch cloneOpts w
          = (Rejected (ErrorObject (baseDir opts ++ "exists but is not a directory.")),
             called (FsStat (baseDir opts)) w)).
  unfold StableDirectoryManager_directoryFor.
  rewrite R.
  unfold freshDirectoryFor, createFreshDir, assureDirectoryExists, fs_stat,
    Promise.then_, Promise.then2.
  rewrite E; reflexivity.
Qed.

(** The project [cloned] resolves with stands in the directory that
    [fromExistingDirectory] reported, followed by the path into the
    repository, which begins with one slash added when the path has
    none, and is left out when the reference has no path or an empty
    one; the project has no branch and no remote yet. *)
Theorem cloned_resolved (credentials : ProjectOperationCredentials)
    (id : RemoteRepoRef.RemoteRepoRef) (cloneOpts : CloneOptions)
    (gp : GitCommandGitProject.GitCommandGitProject) (w w' : World) :
  GitCommandGitProject.cloned o CloneOptions StableDirectoryManager
    credentials id cloneOpts manager w = (Fulfilled gp, w') ->
  exists p,
    GitCommandGitProject.clone o CloneOptions StableDirectoryManager
      credentials id cloneOpts manager w = (Fulfilled p, w') /\
    GitCommandGitProject.branch gp = None /\
    GitCommandGitProject.remote gp = None /\
    GitCommandGitProject.baseDir gp =
      LocalProject.baseDir p ++
      match RemoteRepoRef.path id with
      | None => ""
      | Some path =>
          if String.eqb path "" then ""
          else if JsString.startsWith path "/" then path
          else String "/" path
      end.
Proof.
  unfold GitCommandGitProject.cloned, Promise.then_ at 1, Promise.resolve.
  destruct (GitCommandGitProject.clone o CloneOptions StableDirectoryManager
              credentials id cloneOpts manager w) as [[p|r] w1]; [|discriminate].
  intros [= <- <-]; exists p; repeat split.
  unfold GitCommandGitProject.fromBaseDir, GitCommandGitProject.pathIntoRepo; simpl.
  destruct (RemoteRepoRef.path id) as [[|ch path]|]; reflexivity.
Qed.

End CloneFacts.

Lemma clone_into_reused_directory_fails_witness :
  GitCommandGitProject.clone all_there unit StableDirectoryManager.StableDirectoryManager
    (mkProjectOperationCredentials "t0ken") some_ref tt
    (StableDirectoryManager.mkStableDirectoryManager all_there (working_opts true))
    nothing_called
  = (Rejected (ErrorObject "actual-directory clone directory type not yet supported"),
     {| Outside.trace := [Outside.FsPathExists "/home/me/.atomist-working/atomist/client"];
        Outside.directoriesUsed := 0 |}).
Proof.
  exact (clone_into_reused_directory_fails all_there unit (working_opts true)
           (mkProjectOperationCredentials "t0ken") some_ref tt nothing_called
           eq_refl eq_refl).
Defined.

Lemma clone_resolved_witness :
  exists p w',
    GitCommandGitProject.clone all_there unit StableDirectoryManager.StableDirectoryManager
      (mkProjectOperationCredentials "t0ken") some_ref tt
      (StableDirectoryManager.mkStableDirectoryManager all_there (working_opts false))
      nothing_called = (Fulfilled p, w') /\
    Outside.directoriesUsed w' = 1 /\
    exists before,
      Outside.trace w' =
      (before ++
       [Outside.FsRemove "/home/me/.atomist-working/atomist/client";
        Outside.Exec "git clone --depth 1 https://t0ken@github.com/atomist/client.git"
          "/home/me/.atomist-working/atomist";
        Outside.FromExistingDirectory "/home/me/.atomist-working/atomist/client"])%list.
Proof.
  eexists; eexists; split; [vm_compute; reflexivity|].
  destruct (clone_resolved all_there unit (working_opts false)
              (mkProjectOperationCredentials "t0ken") some_ref tt _ nothing_called _ eq_refl)
    as [D [before [_ [T _]]]].
  split; [exact D | exists before; exact T].
Defined.

Lemma directoryFor_base_not_a_directory_witness :
  directoryFor
    (StableDirectoryManager.mkStableDirectoryManager files_only (working_opts false))
    "atomist" "client" "master" tt nothing_called
  = (Rejected (ErrorObject "/home/me/.atomist-workingexists but is not a directory."),
     {| Outside.trace := [Outside.FsStat "/home/me/.atomist-working"];
        Outside.directoriesUsed := 0 |}).
Proof.
  exact (directoryFor_base_not_a_directory files_only unit (working_opts false)
           "atomist" "client" "master" tt nothing_called eq_refl eq_refl).
Defined.

Lemma cloned_resolved_witness :
  exists gp w',
    GitCommandGitProject.cloned all_there unit StableDirectoryManager.StableDirectoryManager
      (mkProjectOperationCredentials "t0ken") some_ref tt
      (StableDirectoryManager.mkStableDirectoryManager all_there (working_opts false))
      nothing_called = (Fulfilled gp, w') /\
    GitCommandGitProject.baseDir gp = "/home/me/.atomist-working/atomist/client/src".
Proof.
  eexists; eexists; split; [vm_compute; reflexivity|].
  destruct (cloned_resolved all_there unit (working_opts false)
              (mkProjectOperationCredentials "t0ken") some_ref tt _ nothing_called _ eq_refl)
    as [p [C [_ [_ B]]]].
  vm_compute in C; injection C as <-; exact B.
Defined.

(** The message client on examples: with one chat team the delegate is
    handed the message for the users in that team; with none, or with
    two, nothing is sent. *)
Example addressUsers_examples :
  let run teams :=
    DefaultSlackMessageClient.addressUsers (fun names : list string => names)
      (fun chatTeamId users => chatTeamId :: users)
      (chat_teams teams) true "hello" ["ann"; "bob"] None [] in
  run ["T1"] =
    (Fulfilled 1,
     [DefaultSlackMessageClient.ExecuteQuery string (list string) unit
        DefaultSlackMessageClient.Query;
      DefaultSlackMessageClient.DelegateSend "hello" ["T1"; "ann"; "bob"] None]) /\
  run [] =
    (Rejected TypeErrorObject,
     [DefaultSlackMessageClient.ExecuteQuery string (list string) unit
        DefaultSlackMessageClient.Query]) /\
  fst (run ["T1"; "T2"]) =
    Rejected (StringReason
                "More then 1 ChatTeam found. Please use fully qualified message addressing available on MessageClient").
Proof. repeat split. Qed.

(** ** A set followed by an append *)

(** A match set and then appended to, under the insertion sort.  When
    the node of the match carries its value and the offset of that
    value in the content [A ++ V ++ C], setting the match to [N] and
    then appending [text] to it (both without dollar sign) and
    flushing writes [A ++ N ++ text ++ C]: the text lands right after
    the new value, whatever the lengths of the old and new values. *)
Theorem flush_set_then_append_InsertionSort (nodes : list TreeNode) (i : nat)
    (node : TreeNode) (A C N text : string) :
  nth_error nodes i = Some node ->
  node_offset node = String.length A ->
  no_dollar N = true -> no_dollar text = true ->
  exists fh,
    calls [SetValue i N; Append i text] (new_FileHit (A ++ node_value node ++ C) nodes)
    = Some fh /\
    file (flush JsArray.InsertionSortEngine fh) = A ++ N ++ text ++ C.
Proof.
  intros Hn Ho DN Dt.
  assert (Hm : nth_error (matches (new_FileHit (A ++ node_value node ++ C) nodes)) i
               = Some (instrument node))
    by (unfold new_FileHit; simpl; now rewrite nth_error_map, Hn).
  cbn [calls call].
  rewrite (set_value_Some _ N _ _ Hm).
  unfold append; simpl matches.
  rewrite (nth_error_set_nth _ _ _ _ Hm).
  eexists; split; [reflexivity|].
  rewrite (flush_two_updates_InsertionSort _
             (mkUpdate (node_value node) N (String.length A))
             (mkUpdate "" text (String.length (A ++ N))))
    by (simpl; now rewrite Ho, length_append).
  simpl file.
  rewrite apply_update_at by exact DN.
  rewrite <- (append_assoc A N C), apply_insert_at by exact Dt.
  now rewrite append_assoc.
Qed.

Lemma flush_set_then_append_InsertionSort_witness :
  exists fh,
    calls [SetValue 0 "org.example"; Append 0 ".impl"] package_file = Some fh /\
    file (flush JsArray.InsertionSortEngine fh) = "package org.example.impl;".
Proof.
  exact (flush_set_then_append_InsertionSort
           [mkTreeNode "packageName" "com.foo.bar" 8 []] 0
           (mkTreeNode "packageName" "com.foo.bar" 8 []) "package " ";" "org.example" ".impl"
           eq_refl eq_refl eq_refl eq_refl).
Defined.

(** Under TimSort the same calls can give another content: the two
    updates are applied in reverse, so that the text is inserted into
    the old content where the new value would end, and the old value,
    now cut in two, is no longer found. *)
Example flush_set_then_append_TimSort :
  option_map (fun fh => file (flush JsArray.TimSortEngine fh))
    (calls [SetValue 0 "org.x"; Append 0 ".impl"] package_file)
  = Some "package com.f.imploo.bar;" /\
  option_map (fun fh => file (flush JsArray.InsertionSortEngine fh))
    (calls [SetValue 0 "org.x"; Append 0 ".impl"] package_file)
  = Some "package org.x.impl;".
Proof. split; reflexivity. Qed.

(** ** GitCommandGitProject: the git commands *)

Section GitFacts.

Import GitCommandGitProject Git.

Variable answer : Answers.
Variable GitHubRepoRef : string -> string -> RemoteRepoRef.RemoteRepoRef.

Lemma runCommandInCurrentWorkingDirectory_trace (this : GitCommandGitProject)
    (cmd : string) (tr : Trace) :
  snd (runCommandInCurrentWorkingDirectory answer this cmd tr)
  = (tr ++ [runCommand_call cmd (baseDir this)])%list.
Proof.
  unfold runCommandInCurrentWorkingDirectory, runCommand, Promise.then_, Promise.resolve.
  destruct (answer tr cmd (baseDir this)); reflexivity.
Qed.

Lemma two_commands_trace (this : GitCommandGitProject) (cmd1 cmd2 : string) (tr : Trace) :
  exists new,
    snd (Promise.then_ (runCommandInCurrentWorkingDirectory answer this cmd1)
           (fun _ => runCommandInCurrentWorkingDirectory answer this cmd2) tr)
    = (tr ++ new)%list /\
    Forall (run_in (baseDir this)) new.
Proof.
  unfold Promise.then_ at 1.
  pose proof (runCommandInCurrentWorkingDirectory_trace this cmd1 tr) as T1.
  destruct (runCommandInCurrentWorkingDirectory answer this cmd1 tr) as [[v|r] tr1];
    simpl in T1; subst tr1.
  - rewrite runCommandInCurrentWorkingDirectory_trace, <- app_assoc.
    eexists; split; [reflexivity | repeat constructor].
  - eexists; split; [reflexivity | repeat constructor].
Qed.

Lemma push_trace (this : GitCommandGitProject) (tr : Trace) :
  snd (snd (push answer this) tr) =
  (tr ++
   [runCommand_call
      (if truthy (branch this) && truthy (remote this)
       then "git push " ++ template (remote this) ++ " " ++ template (branch this)
       else "git push --set-upstream origin " ++ template (branch this))
      (baseDir this)])%list.
Proof.
  unfold push; simpl snd at 2.
  destruct (truthy (branch this) && truthy (remote this));
    unfold catch_;
    match goal with
    | |- context [runCommandInCurrentWorkingDirectory answer this ?cmd tr] =>
        pose proof (runCommandInCurrentWorkingDirectory_trace this cmd tr) as T;
        destruct (runCommandInCurrentWorkingDirectory answer this cmd tr) as [[v|r] tr1]
    end; simpl in T |- *; exact T.
Qed.

(** What one call does to the project and to the trace. *)
Lemma perform_step (m : MethodCall) (this : GitCommandGitProject) (tr : Trace) :
  let this' := fst (perform answer GitHubRepoRef m (this, tr)) in
  let tr' := snd (perform answer GitHubRepoRef m (this, tr)) in
  baseDir this' = baseDir this /\
  credentials this' = credentials this /\
  branch this' = branch_after [m] (branch this) /\
  remote this' = remote_after (credentials this) [m] (remote this) /\
  exists new, tr' = (tr ++ new)%list /\ Forall (run_in (baseDir this)) new.
Proof.
  destruct m; unfold perform; simpl; repeat split;
    try (rewrite runCommandInCurrentWorkingDirectory_trace;
         eexists; split; [reflexivity | repeat constructor]);
    try apply two_commands_trace.
  - (* isClean *)
    unfold Promise.then_ at 1.
    pose proof (runCommandInCurrentWorkingDirectory_trace this "git status --porcelain" tr) as T.
    destruct (runCommandInCurrentWorkingDirectory answer this "git status --porcelain" tr)
      as [[v|r] tr1]; simpl in T |- *; subst tr1;
      eexists; split; try reflexivity; repeat constructor.
  - (* push *)
    pose proof (push_trace this tr) as T; unfold push in T; simpl in T; rewrite T.
    eexists; split; [reflexivity | repeat constructor].
  - (* createBranch *)
    match goal with
    | |- context [Promise.then_ (runCommandInCurrentWorkingDirectory answer ?t ?c1)
                    (fun _ => runCommandInCurrentWorkingDirectory answer ?t ?c2) tr] =>
        apply (two_commands_trace t c1 c2 tr)
    end.
Qed.

(** Whatever the calls and whatever git answers: the directory and the
    credentials of the project stay what they were, every command is
    run in that directory, and the branch and the remote of the project
    are those the calls name (the branch of the last [init] or
    [createBranch], the remote of the last [setRemote] or
    [setGitHubRemote]), also when the commands of these calls failed. *)
Theorem git_calls_invariant (ms : list MethodCall) (this : GitCommandGitProject) (tr : Trace) :
  let this' := fst (perform_all answer GitHubRepoRef ms (this, tr)) in
  let tr' := snd (perform_all answer GitHubRepoRef ms (this, tr)) in
  baseDir this' = baseDir this /\
  credentials this' = credentials this /\
  branch this' = branch_after ms (branch this) /\
  remote this' = remote_after (credentials this) ms (remote this) /\
  exists new, tr' = (tr ++ new)%list /\ Forall (run_in (baseDir this)) new.
Proof.
  revert this tr; induction ms as [|m ms IH]; intros this tr.
  - simpl; repeat split; exists []; split; [now rewrite app_nil_r | constructor].
  - unfold perform_all in *; cbn [fold_left].
    destruct (perform_step m this tr) as [B [C [Br [R [new [T F]]]]]].
    destruct (perform answer GitHubRepoRef m (this, tr)) as [this1 tr1] eqn:E.
    simpl in B, C, Br, R, T.
    destruct (IH this1 tr1) as [B' [C' [Br' [R' [new' [T' F']]]]]].
    cbv zeta; repeat split.
    + congruence.
    + congruence.
    + rewrite Br', Br; reflexivity.
    + rewrite R', R, C; reflexivity.
    + exists (new ++ new')%list; split.
      * rewrite T', T; apply eq_sym, app_assoc.
      * apply Forall_app; split; [exact F | now rewrite <- B].
Qed.

Lemma branch_after_unnamed (ms : list MethodCall) (b : option string) :
  forallb (fun m => negb (names_branch m)) ms = true -> branch_after ms b = b.
Proof.
  unfold branch_after; revert b; induction ms as [|m ms IH]; intros b; simpl.
  - reflexivity.
  - intros H; apply andb_true_iff in H as [Hm Hms].
    rewrite IH by exact Hms.
    destruct m; try reflexivity; discriminate.
Qed.

(** A project made by [fromBaseDir] (as [cloned] makes it) has no
    branch.  As long as neither [init] nor [createBranch] is called on
    it, whatever else is called and whatever git answers, [push] runs
    [git push --set-upstream origin undefined] in the directory of the
    project, and nothing else. *)
Theorem push_without_branch (id : RemoteRepoRef.RemoteRepoRef) (dir : string)
    (creds : ProjectOperationCredentials) (ms : list MethodCall) (tr : Trace) :
  forallb (fun m => negb (names_branch m)) ms = true ->
  let state := perform_all answer GitHubRepoRef ms (fromBaseDir id dir creds, tr) in
  snd (perform answer GitHubRepoRef Push state) =
  (snd state ++ [runCommand_call "git push --set-upstream origin undefined" dir])%list.
Proof.
  intros H state.
  destruct (git_calls_invariant ms (fromBaseDir id dir creds) tr) as [B [_ [Br _]]].
  fold state in B, Br.
  rewrite branch_after_unnamed in Br by exact H.
  simpl in B, Br.
  destruct state as [this' tr'].
  unfold perform; cbn [method fst snd].
  pose proof (push_trace this' tr') as T.
  destruct (push answer this') as [this2 task] eqn:E.
  simpl in T |- *; rewrite T.
  simpl in B, Br; rewrite Br, B; reflexivity.
Qed.

End GitFacts.

Lemma push_without_branch_witness :
  snd (Git.perform git_fails (fun _ _ => some_ref) Git.Push
         (Git.perform_all git_fails (fun _ _ => some_ref)
            [Git.SetRemote "https://github.com/atomist/client.git"; Git.Commit "first"]
            (GitCommandGitProject.fromBaseDir some_ref "/work/client"
               (mkProjectOperationCredentials "t0ken"), [])))
  = [Git.runCommand_call "git remote add origin https://github.com/atomist/client.git"
       "/work/client";
     Git.runCommand_call "git add ." "/work/client";
     Git.runCommand_call "git push --set-upstream origin undefined" "/work/client"].
Proof.
  exact (push_without_branch git_fails (fun _ _ => some_ref) some_ref "/work/client"
           (mkProjectOperationCredentials "t0ken")
           [Git.SetRemote "https://github.com/atomist/client.git"; Git.Commit "first"] []
           eq_refl).
Defined.

(** The calls of a new repository, when git succeeds: the commands run,
    in order. *)
Example git_calls_example :
  map (fun c => match c with Git.runCommand_call cmd _ => cmd end)
    (snd (Git.perform_all git_succeeds (fun _ _ => some_ref)
            [Git.Init; Git.CreateBranch "topic"; Git.SetRemote "R"; Git.Commit "msg"; Git.Push]
            (GitCommandGitProject.fromBaseDir some_ref "/work/client"
               (mkProjectOperationCredentials "t0ken"), [])))
  = ["git init"; "git branch topic"; "git checkout topic"; "git remote add origin R";
     "git add ."; "git commit -a -m " ++ Git.dquote ++ "msg" ++ Git.dquote;
     "git push R topic"].
Proof. reflexivity. Qed.
